(** * ballin: a verification development for the command interpreter

    The development embeds the C++ sources of the interpreter
    ([source/main.cpp]) and of its arithmetic engine
    ([source/math/Eval.cpp], [source/math/Lexer.cpp],
    [include/ballin/math/Lexer.hpp]) as Rocq functions and proves
    properties of them.  [main.cpp] holds two revisions of the
    interpreter; the later one is embedded.  The earlier one differs in
    the names of two members, in looking a name up without going through
    [Commands::command], and in [echo] printing an empty line when it has
    no argument.

    Conventions of the embedding:
    - [std::size_t] is the 64-bit unsigned type: values live in [N] and
      the operations that can wrap are written with their wrap-around;
    - [float] is IEEE-754 binary32, taken from [SpecFloat] with
      [prec = 24] and [emax = 128];
    - [std::string] and [std::string_view] are [string];
      [std::deque<std::string>] and [std::vector<T>] are lists;
    - [std::unordered_map<std::string, Command>] is a [gmap string Command];
    - standard output, [std::exit], a failed [assert], an escaping
      exception and undefined behaviour are explicit outcomes of a small
      monad. *)

From Stdlib Require Import ZArith NArith List String Ascii Bool Lia.
From Stdlib Require Import QArith.
From Stdlib Require Import Floats.SpecFloat.
From stdpp Require Import base option gmap strings.
Import ListNotations.

Local Open Scope string_scope.
Local Open Scope list_scope.

(** ** Machine integers *)

Module Size.

(** [std::numeric_limits<std::size_t>::max()] on the 64-bit target. *)
Definition max : N := (2 ^ 64 - 1)%N.

Definition wrap (n : Z) : N := Z.to_N (n mod 2 ^ 64).

Definition add (a b : N) : N := wrap (Z.of_N a + Z.of_N b).
Definition sub (a b : N) : N := wrap (Z.of_N a - Z.of_N b).
Definition mul (a b : N) : N := wrap (Z.of_N a * Z.of_N b).

(** Unsigned division; a zero divisor is undefined behaviour. *)
Definition div (a b : N) : option N :=
  if (b =? 0)%N then None else Some (a / b)%N.

(** [std::ranges::min({a, b, c})]. *)
Definition min3 (a b c : N) : N := N.min a (N.min b c).

End Size.

(** ** Strings *)

(** [s.size()]. *)
Definition size (s : string) : N := N.of_nat (String.length s).

(** [s.front()]; reading the front of an empty string is undefined. *)
Definition front (s : string) : option ascii :=
  match s with
  | EmptyString => None
  | String c _ => Some c
  end.

(** The string a [std::string] constructor builds from [s.data()]: the
    characters before the first NUL. *)
Fixpoint c_str (s : string) : string :=
  match s with
  | EmptyString => EmptyString
  | String c s' => if Ascii.eqb c zero then EmptyString else String c (c_str s')
  end.

(** [n] characters ['0']. *)
Fixpoint zeros (n : nat) : string :=
  match n with
  | O => EmptyString
  | S k => String "0" (zeros k)
  end.

(** ** EditDistance ([main.cpp], [calculate_edit_distance]) *)

(** Both tails are taken from [from]: the source reads
    [auto const toTail = from.substr(1);]. *)
Fixpoint calculate_edit_distance (from to : string) : N :=
  match from with
  | EmptyString => size to
  | String f fromTail =>
      match to with
      | EmptyString => size from
      | String t _ =>
          let toTail := fromTail in
          if Ascii.eqb f t then calculate_edit_distance fromTail toTail
          else
            Size.add 1
              (Size.min3
                 (calculate_edit_distance fromTail to)
                 (calculate_edit_distance toTail from)
                 (calculate_edit_distance fromTail toTail))
      end
  end.

(** *** The standard definition, from the specification's words

    One edit is the insertion, the deletion or the substitution of a
    single character at any position. *)
Inductive edit : string -> string -> Prop :=
  | edit_insert (p s : string) (c : ascii) :
      edit (p ++ s) (p ++ String c s)
  | edit_delete (p s : string) (c : ascii) :
      edit (p ++ String c s) (p ++ s)
  | edit_substitute (p s : string) (c d : ascii) :
      edit (p ++ String c s) (p ++ String d s).

(** [transforms n a b]: [n] edits turn [a] into [b]. *)
Inductive transforms : nat -> string -> string -> Prop :=
  | transforms_done (a : string) : transforms 0 a a
  | transforms_step (n : nat) (a b c : string) :
      edit a b -> transforms n b c -> transforms (S n) a c.

(** [n] is the Levenshtein distance from [a] to [b]: the least number
    of edits that transforms [a] into [b]. *)
Definition is_levenshtein (n : nat) (a b : string) : Prop :=
  transforms n a b /\ forall m, transforms m a b -> n <= m.

(** ** Numbers read from and written to streams

    The primitives convert their arguments with
    [std::stringstream { s } >> value] and print results with
    [stream << value].  These are library calls; they are modelled here
    for the "C" locale on plain decimal input: optional leading white
    space, an optional sign, digits and, for [float], an optional
    fraction.  Exponent notation is outside the modelled input domain. *)

Definition is_digit (c : ascii) : bool :=
  let n := N_of_ascii c in (48 <=? n)%N && (n <=? 57)%N.

Definition digit_value (c : ascii) : Z := Z.of_N (N_of_ascii c) - 48.

Definition is_space (c : ascii) : bool :=
  let n := N_of_ascii c in (n =? 32)%N || ((9 <=? n)%N && (n <=? 13)%N).

Fixpoint skipws (s : string) : string :=
  match s with
  | String c s' => if is_space c then skipws s' else s
  | EmptyString => s
  end.

(** The longest prefix of digits of [s], accumulated onto [acc]: the new
    accumulator, the number of digits read and the rest of [s]. *)
Fixpoint read_digits (s : string) (acc : Z) (count : nat) : Z * nat * string :=
  match s with
  | String c s' =>
      if is_digit c then read_digits s' (10 * acc + digit_value c)%Z (S count)
      else (acc, count, s)
  | EmptyString => (acc, count, s)
  end.

Definition read_sign (s : string) : bool * string :=
  match s with
  | String "-" s' => (true, s')
  | String "+" s' => (false, s')
  | _ => (false, s)
  end.

(** Decimal digits of [v], most significant first, exactly [width] of
    them (the value is reduced modulo [10 ^ width]). *)
Fixpoint digits_of (width : nat) (v : Z) (acc : string) : string :=
  match width with
  | O => acc
  | S w => digits_of w (v / 10)%Z (String (ascii_of_N (Z.to_N (48 + v mod 10))) acc)
  end.

(** Number of decimal digits of [v] (1 for 0), by search up to [fuel]. *)
Fixpoint count_digits (fuel : nat) (v : Z) : nat :=
  match fuel with
  | O => 1
  | S f => if (v <? 10)%Z then 1 else S (count_digits f (v / 10)%Z)
  end.

(** [stream << v] for an unsigned integer. *)
Definition utos (v : N) : string :=
  digits_of (count_digits 20 (Z.of_N v)) (Z.of_N v) EmptyString.

(** [std::stringstream { s } >> value] for [std::size_t value {}]: a
    field without digits stores 0, a value that does not fit stores the
    maximum, a minus sign negates modulo [2 ^ 64]. *)
Definition stoul (s : string) : N :=
  let '(neg, s1) := read_sign (skipws s) in
  let '(v, count, _) := read_digits s1 0%Z 0%nat in
  match count with
  | O => 0%N
  | _ =>
      if (Z.of_N Size.max <? v)%Z then Size.max
      else if neg then Size.wrap (- v) else Z.to_N v
  end.

Module Float32.

Definition prec : Z := 24.
Definition emax : Z := 128.

Definition float := spec_float.

Definition add : float -> float -> float := SFadd prec emax.
Definition sub : float -> float -> float := SFsub prec emax.
Definition mul : float -> float -> float := SFmul prec emax.
Definition div : float -> float -> float := SFdiv prec emax.

(** The float nearest to the integer [z]. *)
Definition of_Z (z : Z) : float := binary_normalize prec emax z 0 false.

(** [std::numeric_limits<float>::max()]. *)
Definition max : float := SFmax_float prec emax.

(** The float nearest to [m / 10 ^ k], with the sign [neg]; a value too
    large for a float is stored as the largest one. *)
Definition of_decimal (neg : bool) (m : Z) (k : nat) : float :=
  match m with
  | Zpos p =>
      let nearest :=
        match k with
        | O => binary_round prec emax neg p 0
        | _ => SFdiv prec emax (S754_finite neg p 0)
                 (S754_finite false (Z.to_pos (10 ^ Z.of_nat k)) 0)
        end in
      match nearest with
      | S754_infinity s => if s then SFopp max else max
      | _ => nearest
      end
  | _ => S754_zero neg
  end.

(** [std::stringstream { s } >> value] for [float value {}]: a field
    without digits stores 0. *)
Definition stof (s : string) : float :=
  let '(neg, s1) := read_sign (skipws s) in
  let '(i, ni, s2) := read_digits s1 0%Z 0%nat in
  let '(m, n, _) :=
    match s2 with
    | String "." s3 => read_digits s3 i ni
    | _ => (i, ni, s2)
    end in
  match n with
  | O => S754_zero false
  | _ => of_decimal neg m (n - ni)
  end.

(** *** Printing, as [printf("%g")] does with the default precision 6 *)

(** [le_pow10 num den k]: [10 ^ k <= num / den]. *)
Definition le_pow10 (num den k : Z) : bool :=
  if (0 <=? k)%Z then (10 ^ k * den <=? num)%Z
  else (den <=? num * 10 ^ (- k))%Z.

(** The decimal exponent of [num / den]: the largest [k] at most
    [start] with [10 ^ k <= num / den]. *)
Fixpoint decimal_exponent (fuel : nat) (num den start : Z) : Z :=
  match fuel with
  | O => start
  | S f =>
      if le_pow10 num den start then start
      else decimal_exponent f num den (start - 1)
  end.

(** [a / b] rounded to the nearest integer, ties to even. *)
Definition round_div (a b : Z) : Z :=
  let q := (a / b)%Z in
  let r := (a mod b)%Z in
  match (2 * r ?= b)%Z with
  | Lt => q
  | Gt => (q + 1)%Z
  | Eq => if Z.even q then q else (q + 1)%Z
  end.

(** Drops the zeros at the end of a fraction. *)
Fixpoint strip_zeros (s : string) : string :=
  match s with
  | EmptyString => EmptyString
  | String c s' =>
      match strip_zeros s' with
      | EmptyString => if Ascii.eqb c "0" then EmptyString else String c EmptyString
      | t => String c t
      end
  end.

Definition with_fraction (int frac : string) : string :=
  match strip_zeros frac with
  | EmptyString => int
  | f => int ++ "." ++ f
  end.

(** The magnitude [m * 2 ^ e] with six significant digits. *)
Definition format_g (m : positive) (e : Z) : string :=
  let num := if (0 <=? e)%Z then (Zpos m * 2 ^ e)%Z else Zpos m in
  let den := if (0 <=? e)%Z then 1%Z else (2 ^ (- e))%Z in
  let x0 := decimal_exponent 100 num den 40 in
  let d0 :=
    if (x0 <=? 5)%Z then round_div (num * 10 ^ (5 - x0)) den
    else round_div num (den * 10 ^ (x0 - 5)) in
  let '(d, x) := if (d0 =? 1000000)%Z then (100000%Z, (x0 + 1)%Z) else (d0, x0) in
  let ds := digits_of 6 d EmptyString in
  if ((x <? -4) || (6 <=? x))%Z then
    let ax := Z.abs x in
    with_fraction (substring 0 1 ds) (substring 1 5 ds)
      ++ "e" ++ (if (x <? 0)%Z then "-" else "+")
      ++ digits_of (Nat.max 2 (count_digits 3 ax)) ax EmptyString
  else if (0 <=? x)%Z then
    let i := S (Z.to_nat x) in
    with_fraction (substring 0 i ds) (substring i (6 - i) ds)
  else
    with_fraction "0" (zeros (Z.to_nat (- x - 1)) ++ ds).

(** [stream << x].  A NaN of this model carries no sign bit; the
    library prints the sign of the NaN the hardware produced ([-nan] for
    the quotient of two zeros on x86-64), so the text of a NaN is
    outside the modelled domain. *)
Definition ftos (x : float) : string :=
  match x with
  | S754_nan => "nan"
  | S754_infinity s => (if s then "-" else EmptyString) ++ "inf"
  | S754_zero s => (if s then "-" else EmptyString) ++ "0"
  | S754_finite s m e => (if s then "-" else EmptyString) ++ format_g m e
  end.

End Float32.

(** ** Outcomes

    What ends a computation other than its result. *)
Inductive fault : Type :=
  | AssertionFailed (message : string)  (* a failed [assert] *)
  | OutOfRange                          (* [std::out_of_range] thrown by [at] *)
  | Undefined                           (* undefined behaviour *)
  | Exit                                (* [std::exit(EXIT_SUCCESS)] *)
  | OutOfFuel.                          (* the recursion bound of the model *)

Inductive outcome (A : Type) : Type :=
  | Ok (a : A)
  | Fail (f : fault).

Arguments Ok {A} a.
Arguments Fail {A} f.

#[global] Instance outcome_ret : MRet outcome := fun A a => Ok a.

#[global] Instance outcome_bind : MBind outcome := fun A B k m =>
  match m with
  | Ok a => k a
  | Fail f => Fail f
  end.

(** ** The expression engine ([namespace ballin::math]) *)

Module Math.

(** *** [Lexer.hpp]: [struct Token] *)

Inductive Type_ : Type := NUMBER | OPERATOR | LPAREN | RPAREN.
Inductive Precedence : Type := NONE | _3 | _2 | _1.
Inductive Fixity : Type := LEFT | RIGHT.

Record Token : Type := {
  type : Type_;
  precedence : Precedence;
  fixity : Fixity;
  value : string
}.

(** The enumerators of [Precedence] in declaration order: the
    comparisons of the parser are those of the underlying integers. *)
Definition underlying (p : Precedence) : N :=
  match p with
  | NONE => 0
  | _3 => 1
  | _2 => 2
  | _1 => 3
  end.

Definition Type_eqb (a b : Type_) : bool :=
  match a, b with
  | NUMBER, NUMBER | OPERATOR, OPERATOR | LPAREN, LPAREN | RPAREN, RPAREN => true
  | _, _ => false
  end.

Definition Fixity_eqb (a b : Fixity) : bool :=
  match a, b with
  | LEFT, LEFT | RIGHT, RIGHT => true
  | _, _ => false
  end.

Definition is_number (token : Token) : bool := Type_eqb (type token) NUMBER.
Definition is_operator (token : Token) : bool := Type_eqb (type token) OPERATOR.
Definition is_left_parenthesis (token : Token) : bool := Type_eqb (type token) LPAREN.
Definition is_right_parenthesis (token : Token) : bool := Type_eqb (type token) RPAREN.

(** *** [Lexer.cpp]: [Lexer::tokenize] *)

(** The words a [std::istream_iterator<std::string>] yields: the
    maximal runs of characters that are not white space. *)
Fixpoint words_from (s : string) (word : string) : list string :=
  match s with
  | EmptyString => match word with EmptyString => [] | _ => [word] end
  | String c s' =>
      if is_space c then
        match word with
        | EmptyString => words_from s' EmptyString
        | _ => word :: words_from s' EmptyString
        end
      else words_from s' (word ++ String c EmptyString)
  end.

Definition words (s : string) : list string := words_from s EmptyString.

(** [std::ranges::all_of(value, isdigit(byte) || byte == '.')]. *)
Fixpoint all_digits_or_points (s : string) : bool :=
  match s with
  | EmptyString => true
  | String c s' => (is_digit c || Ascii.eqb c ".") && all_digits_or_points s'
  end.

(** The body of the lambda: [Token token {}] starts from the first
    enumerator of each field, so [fixity] stays [LEFT]. *)
Definition tokenize_word (word : string) : outcome Token :=
  if all_digits_or_points word then
    Ok {| type := NUMBER; precedence := NONE; fixity := LEFT; value := word |}
  else
    match front word with
    | Some ("+" | "-")%char =>
        Ok {| type := OPERATOR; precedence := _3; fixity := LEFT; value := word |}
    | Some ("*" | "/")%char =>
        Ok {| type := OPERATOR; precedence := _2; fixity := LEFT; value := word |}
    | Some "("%char =>
        Ok {| type := LPAREN; precedence := _1; fixity := LEFT; value := word |}
    | Some ")"%char =>
        Ok {| type := RPAREN; precedence := _1; fixity := LEFT; value := word |}
    | Some _ => Fail (AssertionFailed "UNRECOGNIZED SYMBOL WAS REACHED")
    | None => Fail Undefined
    end.

Fixpoint tokenize_words (ws : list string) : outcome (list Token) :=
  match ws with
  | [] => Ok []
  | word :: ws' =>
      token ← tokenize_word word;
      tokens ← tokenize_words ws';
      Ok (token :: tokens)
  end.

(** [Lexer(expression).tokenize()]: the constructor fills the stream
    from [expression.data()]. *)
Definition tokenize (expression : string) : outcome (list Token) :=
  tokenize_words (words (c_str expression)).

(** *** [Eval.cpp]: [parse_expression] *)

(** The loop of the [OPERATOR] case: [expressionOperators] is a deque
    used from its front. *)
Fixpoint pop_operators (token : Token) (expressionOperators expression : list Token)
  : list Token * list Token :=
  match expressionOperators with
  | [] => (expression, [])
  | top :: rest =>
      let hasLowerPrecedence := (underlying (precedence token) <? underlying (precedence top))%N in
      let hasEqualPrecedence := (underlying (precedence token) =? underlying (precedence top))%N in
      if is_left_parenthesis top
         || negb (hasLowerPrecedence || (hasEqualPrecedence && Fixity_eqb (fixity token) LEFT))
      then (expression, expressionOperators)
      else pop_operators token rest (expression ++ [top])
  end.

(** The loop of the [RPAREN] case. *)
Fixpoint pop_until_left_parenthesis (expressionOperators expression : list Token)
  : list Token * list Token :=
  match expressionOperators with
  | [] => (expression, [])
  | top :: rest =>
      if is_left_parenthesis top then (expression, expressionOperators)
      else pop_until_left_parenthesis rest (expression ++ [top])
  end.

(** One iteration of the loop over the tokens, on the pair
    [(expression, expressionOperators)]. *)
Definition parse_token (token : Token) (state : list Token * list Token)
  : outcome (list Token * list Token) :=
  let '(expression, expressionOperators) := state in
  match type token with
  | NUMBER => Ok (expression ++ [token], expressionOperators)
  | OPERATOR =>
      let '(expression', expressionOperators') :=
        pop_operators token expressionOperators expression in
      Ok (expression', token :: expressionOperators')
  | LPAREN => Ok (expression, token :: expressionOperators)
  | RPAREN =>
      let '(expression', expressionOperators') :=
        pop_until_left_parenthesis expressionOperators expression in
      match expressionOperators' with
      | [] => Fail (AssertionFailed "MISMATCHING PARENTHESIS")
      | _ :: rest => Ok (expression', rest)
      end
  end.

Fixpoint parse_tokens (tokens : list Token) (state : list Token * list Token)
  : outcome (list Token * list Token) :=
  match tokens with
  | [] => Ok state
  | token :: tokens' =>
      state' ← parse_token token state;
      parse_tokens tokens' state'
  end.

Definition parse_expression (tokens : list Token) : outcome (list Token) :=
  '(expression, expressionOperators) ← parse_tokens tokens ([], []);
  Ok (expression ++ expressionOperators).

(** *** [Eval.cpp]: [evaluate_expression] *)

(** The inner [switch (token.value.front())]: the first pop is named
    [lhs], the second [rhs], and [rhs] is updated in place. *)
Definition apply_operator (symbol : ascii) (lhs rhs : Float32.float) : Float32.float :=
  match symbol with
  | "+"%char => Float32.add rhs lhs
  | "-"%char => Float32.sub rhs lhs
  | "*"%char => Float32.mul rhs lhs
  | "/"%char => Float32.div rhs lhs
  | _ => rhs
  end.

(** One iteration on [expressionStack], whose top is the head of the
    list; [top] and [pop] on an empty stack are undefined. *)
Definition evaluate_token (token : Token) (expressionStack : list Float32.float)
  : outcome (list Float32.float) :=
  match type token with
  | NUMBER => Ok (Float32.stof (value token) :: expressionStack)
  | OPERATOR =>
      match expressionStack with
      | lhs :: rhs :: rest =>
          match front (value token) with
          | Some symbol => Ok (apply_operator symbol lhs rhs :: rest)
          | None => Fail Undefined
          end
      | _ => Fail Undefined
      end
  | LPAREN => Ok expressionStack
  | RPAREN => Ok expressionStack
  end.

Fixpoint evaluate_tokens (tokens : list Token) (expressionStack : list Float32.float)
  : outcome (list Float32.float) :=
  match tokens with
  | [] => Ok expressionStack
  | token :: tokens' =>
      expressionStack' ← evaluate_token token expressionStack;
      evaluate_tokens tokens' expressionStack'
  end.

Definition evaluate_expression (tokens : list Token) : outcome Float32.float :=
  expressionStack ← evaluate_tokens tokens [];
  match expressionStack with
  | top :: _ => Ok top
  | [] => Fail Undefined
  end.

End Math.

(** ** Programs with output

    A program of the interpreter reads and extends a trace of events and
    ends in an outcome.  [Printed] records text sent to standard output.
    [Invoked] is ghost: it records that the action of the named command
    was called, so that "no action runs" can be stated. *)
Inductive event : Type :=
  | Printed (text : string)
  | Invoked (name : string).

Record IO (A : Type) : Type := mkIO {
  run : list event -> outcome A * list event
}.

Arguments mkIO {A} run.
Arguments run {A} _ _.

#[global] Instance IO_ret : MRet IO := fun A a => mkIO (fun trace => (Ok a, trace)).

#[global] Instance IO_bind : MBind IO := fun A B k m =>
  mkIO (fun trace =>
    match run m trace with
    | (Ok a, trace') => run (k a) trace'
    | (Fail f, trace') => (Fail f, trace')
    end).

Definition emit (e : event) : IO unit := mkIO (fun trace => (Ok tt, trace ++ [e])).

Definition abort {A : Type} (f : fault) : IO A := mkIO (fun trace => (Fail f, trace)).

Definition lift {A : Type} (m : outcome A) : IO A := mkIO (fun trace => (m, trace)).

Definition newline : string := String "010"%char EmptyString.

(** [std::print(text)] and [std::println(text)]. *)
Definition print (text : string) : IO unit := emit (Printed text).
Definition println (text : string) : IO unit := emit (Printed (text ++ newline)).

(** The text printed by a trace. *)
Fixpoint printed (trace : list event) : string :=
  match trace with
  | [] => EmptyString
  | Printed text :: trace' => text ++ printed trace'
  | Invoked _ :: trace' => printed trace'
  end.

(** The commands whose action a trace shows invoked. *)
Fixpoint invoked (trace : list event) : list string :=
  match trace with
  | [] => []
  | Printed _ :: trace' => invoked trace'
  | Invoked name :: trace' => name :: invoked trace'
  end.

(** ** Ranges *)

(** The first [n] elements of a range and the range without them, for a
    count that need not fit [nat]. *)
Fixpoint take_n {A : Type} (n : N) (range : list A) : list A :=
  match range with
  | [] => []
  | x :: range' => if (n =? 0)%N then [] else x :: take_n (N.pred n) range'
  end.

Fixpoint drop_n {A : Type} (n : N) (range : list A) : list A :=
  match range with
  | [] => []
  | x :: range' => if (n =? 0)%N then range else drop_n (N.pred n) range'
  end.

(** The count of [std::views::take] and [std::views::drop] has the
    signed type [std::ptrdiff_t]: a [std::size_t] of [2 ^ 63] or more
    arrives there negative. *)
Definition to_difference (n : N) : Z :=
  if (n <? 2 ^ 63)%N then Z.of_N n else (Z.of_N n - 2 ^ 64)%Z.

(** [range | std::views::take(count)] and [range | std::views::drop(count)],
    collected; a negative count breaks the precondition of the view. *)
Definition views_take {A : Type} (count : Z) (range : list A) : outcome (list A) :=
  if (count <? 0)%Z then Fail Undefined else Ok (take_n (Z.to_N count) range).

Definition views_drop {A : Type} (count : Z) (range : list A) : outcome (list A) :=
  if (count <? 0)%Z then Fail Undefined else Ok (drop_n (Z.to_N count) range).

(** [input | std::views::split(sep)]: every piece between separators,
    empty pieces included; an empty input has no piece. *)
Fixpoint split_from (sep : ascii) (s : string) (piece : string) : list string :=
  match s with
  | EmptyString => [piece]
  | String c s' =>
      if Ascii.eqb c sep then piece :: split_from sep s' EmptyString
      else split_from sep s' (piece ++ String c EmptyString)
  end.

Definition split (sep : ascii) (s : string) : list string :=
  match s with
  | EmptyString => []
  | _ => split_from sep s EmptyString
  end.

(** [range | std::views::join_with(sep)], collected into a string. *)
Fixpoint join_with (sep : ascii) (range : list string) : string :=
  match range with
  | [] => EmptyString
  | [x] => x
  | x :: range' => x ++ String sep (join_with sep range')
  end.

(** ** The command object model ([class Command]) *)

Definition argument_t : Type := list string.
Definition return_t : Type := list string.

(** [signature_t] is [std::function<return_t(argument_t)>].  Nine of the
    ten registered lambdas capture nothing; the lambda of [apply]
    captures the registry by reference ([[&]]) and is kept as a
    constructor of its own, resolved against the registry when called. *)
Inductive signature_t : Type :=
  | Captureless (action : argument_t -> IO return_t)
  | CapturingCommands.

#[warnings="-register-all"]
Inductive Command : Type := mkCommand {
  name_m : string;
  arguments_m : argument_t;
  argumentsCount_m : N;
  action_m : signature_t;
  subcommands_m : list Command
}.

(** [Command(commandName, numberOfArguments, commandAction)]. *)
Definition Command_new (commandName : string) (numberOfArguments : N)
    (commandAction : signature_t) : Command :=
  {| name_m := commandName;
     arguments_m := [];
     argumentsCount_m := numberOfArguments;
     action_m := commandAction;
     subcommands_m := [] |}.

Definition arguments_count (c : Command) : N := argumentsCount_m c.

(** [arguments_m.push_back(argument.data())]. *)
Definition push_back_argument (c : Command) (argument : string) : Command :=
  {| name_m := name_m c;
     arguments_m := arguments_m c ++ [c_str argument];
     argumentsCount_m := argumentsCount_m c;
     action_m := action_m c;
     subcommands_m := subcommands_m c |}.

Definition push_front_argument (c : Command) (argument : string) : Command :=
  {| name_m := name_m c;
     arguments_m := c_str argument :: arguments_m c;
     argumentsCount_m := argumentsCount_m c;
     action_m := action_m c;
     subcommands_m := subcommands_m c |}.

Definition push_subcommand (c : Command) (subcommand : Command) : Command :=
  {| name_m := name_m c;
     arguments_m := arguments_m c;
     argumentsCount_m := argumentsCount_m c;
     action_m := action_m c;
     subcommands_m := subcommands_m c ++ [subcommand] |}.

(** ** SuggestionReporter ([handle_non_existing_command]) *)

(** The predicate of the filter, in [std::size_t] arithmetic:
    [(size - distance) / size * 100 > 70]. *)
Definition is_similar (commandName value : string) : outcome bool :=
  let distance := calculate_edit_distance commandName value in
  let size_ := N.max (size commandName) (size value) in
  match Size.div (Size.sub size_ distance) size_ with
  | None => Fail Undefined
  | Some quotient => Ok (70 <? Size.mul quotient 100)%N
  end.

Fixpoint filter_similar (commandName : string) (keys : list string) : outcome (list string) :=
  match keys with
  | [] => Ok []
  | value :: keys' =>
      keep ← is_similar commandName value;
      rest ← filter_similar commandName keys';
      Ok (if keep : bool then value :: rest else rest)
  end.

(** [std::views::keys(availableCommands) | std::views::filter(...)]; the
    iteration order of the unordered map is that of [map_to_list]. *)
Definition similar_commands (availableCommands : gmap string Command) (commandName : string)
  : outcome (list string) :=
  filter_similar commandName (map_to_list availableCommands).*1.

Fixpoint print_suggestions (similarCommands : list string) : IO unit :=
  match similarCommands with
  | [] => mret tt
  | command :: rest =>
      println ("    - " ++ command);;
      print_suggestions rest
  end.

Definition handle_non_existing_command (availableCommands : gmap string Command)
    (commandName : string) : IO unit :=
  print ("the command `" ++ commandName ++ "` doesn't exist.");;
  similarCommands ← lift (similar_commands availableCommands commandName);
  match similarCommands with
  | [] => print newline
  | _ => println " did you mean:";; print_suggestions similarCommands
  end.

(** ** CommandRegistry ([class Commands]) *)

Module Commands.

Definition contains (commands_m : gmap string Command) (commandName : string) : bool :=
  bool_decide (is_Some (commands_m !! c_str commandName)).

(** [std::optional<Command> command(commandName) const]. *)
Definition command (commands_m : gmap string Command) (commandName : string)
  : IO (option Command) :=
  match commands_m !! c_str commandName with
  | None =>
      handle_non_existing_command commands_m commandName;;
      mret None
  | Some found => mret (Some found)
  end.

Definition register_command (command : Command) (commands_m : gmap string Command)
  : outcome (gmap string Command) :=
  if bool_decide (is_Some (commands_m !! name_m command))
  then Fail (AssertionFailed "commands_m.contains(command.name()) != true")
  else Ok (<[name_m command := command]> commands_m).

End Commands.

(** ** The registered primitives ([register_commands]) *)

(** [arguments.at(i)]: throws [std::out_of_range] past the end. *)
Definition at_ (arguments : argument_t) (i : nat) : IO string :=
  match nth_error arguments i with
  | Some argument => mret argument
  | None => abort OutOfRange
  end.

(** Hexadecimal digits of [v], lower case, exactly [width] of them. *)
Fixpoint hex_digits_of (width : nat) (v : Z) (acc : string) : string :=
  match width with
  | O => acc
  | S w =>
      let d := (v mod 16)%Z in
      let c := if (d <? 10)%Z then (48 + d)%Z else (87 + d)%Z in
      hex_digits_of w (v / 16)%Z (String (ascii_of_N (Z.to_N c)) acc)
  end.

Fixpoint count_hex_digits (fuel : nat) (v : Z) : nat :=
  match fuel with
  | O => 1
  | S f => if (v <? 16)%Z then 1 else S (count_hex_digits f (v / 16)%Z)
  end.

(** [stream << std::hex << v]. *)
Definition utos_hex (v : N) : string :=
  hex_digits_of (count_hex_digits 16 (Z.of_N v)) (Z.of_N v) EmptyString.

(** [std::bitset<width>(value).to_string()]: the [width] low bits of
    [value], most significant first. *)
Fixpoint bitset_to_string (width : nat) (value : N) : string :=
  match width with
  | O => EmptyString
  | S w =>
      String (if N.testbit value (N.of_nat w) then "1" else "0")%char
             (bitset_to_string w value)
  end.

Module Primitive.

Definition quit (arguments : argument_t) : IO return_t := abort Exit.

Definition echo (arguments : argument_t) : IO return_t :=
  match arguments with
  | [] => mret []
  | _ => println (join_with " " arguments);; mret []
  end.

(** The four arithmetic lambdas differ in the operator only. *)
Definition arithmetic (op : Float32.float -> Float32.float -> Float32.float)
    (arguments : argument_t) : IO return_t :=
  first ← at_ arguments 0;
  let lhs := Float32.stof first in
  second ← at_ arguments 1;
  let rhs := Float32.stof second in
  mret [Float32.ftos (op lhs rhs)].

Definition add : argument_t -> IO return_t := arithmetic Float32.add.
Definition sub : argument_t -> IO return_t := arithmetic Float32.sub.
Definition mul : argument_t -> IO return_t := arithmetic Float32.mul.
Definition div : argument_t -> IO return_t := arithmetic Float32.div.

Definition hex (arguments : argument_t) : IO return_t :=
  first ← at_ arguments 0;
  let value := stoul first in
  mret [("0x" ++ utos_hex value)%string].

(** The limits are those of [std::uint8_t] to [std::uint64_t]; falling
    out of the cascade reaches [std::unreachable()]. *)
Definition bin (arguments : argument_t) : IO return_t :=
  first ← at_ arguments 0;
  let value := stoul first in
  if (value <=? 255)%N then mret [("0b" ++ bitset_to_string 8 value)%string]
  else if (value <=? 65535)%N then mret [("0b" ++ bitset_to_string 16 value)%string]
  else if (value <=? 4294967295)%N then mret [("0b" ++ bitset_to_string 32 value)%string]
  else if (value <=? 18446744073709551615)%N then mret [("0b" ++ bitset_to_string 64 value)%string]
  else abort Undefined.

(** [std::views::iota(minimum, maximum + 1)]: the bound must be
    reachable from the start. *)
Definition iota (arguments : argument_t) : IO return_t :=
  first ← at_ arguments 0;
  let minimum := stoul first in
  second ← at_ arguments 1;
  let maximum := stoul second in
  let bound := Size.add maximum 1 in
  if (minimum <=? bound)%N then
    mret (map (fun i => utos (minimum + N.of_nat i)) (seq 0 (N.to_nat (bound - minimum))))
  else abort Undefined.

(** The loop of [apply]: [requestedCommandArguments.push_front(argument)],
    the call, [pop_front()]. *)
Fixpoint apply_each (call : argument_t -> IO return_t)
    (requestedCommandArguments : argument_t) (stream : argument_t) (result : return_t)
  : IO return_t :=
  match stream with
  | [] => mret result
  | argument :: stream' =>
      operationResult ← call (argument :: requestedCommandArguments);
      apply_each call requestedCommandArguments stream'
        match operationResult with
        | [] => result
        | first :: _ => result ++ [first]
        end
  end.

(** The lambda of [apply]; [call] is [requestedCommand(...)], the
    call operator of a command taken from the registry. *)
Definition apply (commands : gmap string Command)
    (call : Command -> argument_t -> IO return_t) (arguments : argument_t) : IO return_t :=
  target ← at_ arguments 0;
  maybeCommand ← Commands.command commands target;
  match maybeCommand with
  | None => mret []
  | Some requestedCommand =>
      let count := to_difference (arguments_count requestedCommand) in
      taken ← lift (views_take count arguments);
      requestedCommandArguments ← lift (views_drop 1 taken);
      stream ← lift (views_drop count arguments);
      apply_each (call requestedCommand) requestedCommandArguments stream []
  end.

End Primitive.

(** [std::invoke(action_m, localArguments)].  The lambda of [apply]
    calls commands of the registry it captured, [apply] among them: the
    recursion is bounded by [fuel]. *)
Fixpoint invoke (fuel : nat) (commands : gmap string Command)
    (self : Command) (localArguments : argument_t) : IO return_t :=
  match fuel with
  | O => abort OutOfFuel
  | S fuel' =>
      emit (Invoked (name_m self));;
      match action_m self with
      | Captureless action => action localArguments
      | CapturingCommands =>
          Primitive.apply commands
            (fun requestedCommand arguments =>
               invoke fuel' commands requestedCommand
                 (arguments_m requestedCommand ++ arguments))
            localArguments
      end
  end.

(** [return_t operator()() const]: the action receives the bound
    arguments. *)
Definition Command_call0 (fuel : nat) (commands : gmap string Command) (self : Command)
  : IO return_t :=
  invoke fuel commands self (arguments_m self).

(** [return_t operator()(argument_t const arguments) const]: the action
    receives the bound arguments followed by the supplied ones. *)
Definition Command_call (fuel : nat) (commands : gmap string Command)
    (self : Command) (arguments : argument_t) : IO return_t :=
  invoke fuel commands self (arguments_m self ++ arguments).

Definition register_commands (commands : gmap string Command) : outcome (gmap string Command) :=
  commands ← Commands.register_command (Command_new "quit" 0 (Captureless Primitive.quit)) commands;
  commands ← Commands.register_command (Command_new "echo" 1 (Captureless Primitive.echo)) commands;
  commands ← Commands.register_command (Command_new "add" 2 (Captureless Primitive.add)) commands;
  commands ← Commands.register_command (Command_new "sub" 2 (Captureless Primitive.sub)) commands;
  commands ← Commands.register_command (Command_new "mul" 2 (Captureless Primitive.mul)) commands;
  commands ← Commands.register_command (Command_new "div" 2 (Captureless Primitive.div)) commands;
  commands ← Commands.register_command (Command_new "hex" 1 (Captureless Primitive.hex)) commands;
  commands ← Commands.register_command (Command_new "bin" 1 (Captureless Primitive.bin)) commands;
  commands ← Commands.register_command (Command_new "iota" 2 (Captureless Primitive.iota)) commands;
  Commands.register_command (Command_new "apply" Size.max CapturingCommands) commands.

(** The registry [main] builds before the first line is read. *)
Definition registered : gmap string Command :=
  match register_commands ∅ with
  | Ok commands => commands
  | Fail _ => ∅
  end.

(** ** PipelineInterpreter ([class Interpreter]) *)

Record Interpreter : Type := {
  queuedCommands_m : list Command;
  commands_m : gmap string Command
}.

Definition Interpreter_new (commands : gmap string Command) : Interpreter :=
  {| queuedCommands_m := []; commands_m := commands |}.

(** The chunks of [words | std::views::chunk_by(pred)] with
    [pred(_, rhs) = rhs.front() != '|'].  The view is lazy: the extent of
    a chunk is computed when the chunk is reached, and reading the front
    of an empty word while doing so is undefined. *)
Inductive chunks : Type :=
  | chunks_end
  | chunks_cons (chunk : list string) (rest : chunks)
  | chunks_undefined.

Fixpoint chunk_by_from (chunk : list string) (ws : list string) : chunks :=
  match ws with
  | [] => chunks_cons chunk chunks_end
  | rhs :: ws' =>
      match front rhs with
      | None => chunks_undefined
      | Some c =>
          if Ascii.eqb c "|" then chunks_cons chunk (chunk_by_from [rhs] ws')
          else chunk_by_from (chunk ++ [rhs]) ws'
      end
  end.

Definition chunk_by (ws : list string) : chunks :=
  match ws with
  | [] => chunks_end
  | w :: ws' => chunk_by_from [w] ws'
  end.

(** [input | std::views::drop_while(value.front() == '|')]. *)
Fixpoint drop_while_pipe (input : list string) : outcome (list string) :=
  match input with
  | [] => Ok []
  | value :: rest =>
      match front value with
      | None => Fail Undefined
      | Some c => if Ascii.eqb c "|" then drop_while_pipe rest else Ok input
      end
  end.

(** The lambda [fnParseCommand]; [view.front()] of an empty view is
    undefined. *)
Definition fnParseCommand (commands : gmap string Command) (input : list string)
  : IO (option Command) :=
  view ← lift (drop_while_pipe input);
  match view with
  | [] => abort Undefined
  | name :: arguments =>
      maybeCommand ← Commands.command commands name;
      match maybeCommand with
      | None => mret None
      | Some command => mret (Some (fold_left push_back_argument arguments command))
      end
  end.

(** The loop over [commands | std::views::drop(1)]: [None] when a
    subcommand does not resolve (the function returns). *)
Fixpoint parse_subcommands (commands : gmap string Command) (views : chunks)
    (masterCommand : Command) : IO (option Command) :=
  match views with
  | chunks_end => mret (Some masterCommand)
  | chunks_undefined => abort Undefined
  | chunks_cons view rest =>
      subcommand ← fnParseCommand commands view;
      match subcommand with
      | None => mret None
      | Some subcommand => parse_subcommands commands rest (push_subcommand masterCommand subcommand)
      end
  end.

Definition enqueue_command (self : Interpreter) (input : string) : IO Interpreter :=
  match chunk_by (split " " input) with
  | chunks_end => abort Undefined
  | chunks_undefined => abort Undefined
  | chunks_cons first rest =>
      masterCommand ← fnParseCommand (commands_m self) first;
      match masterCommand with
      | None => mret self
      | Some masterCommand =>
          parsed ← parse_subcommands (commands_m self) rest masterCommand;
          match parsed with
          | None => mret self
          | Some masterCommand =>
              mret {| queuedCommands_m := queuedCommands_m self ++ [masterCommand];
                      commands_m := commands_m self |}
          end
      end
  end.

(** The loop over [masterCommand.subcommands()]. *)
Fixpoint run_subcommands (fuel : nat) (commands : gmap string Command)
    (subcommands : list Command) (operationResult : return_t) : IO return_t :=
  match subcommands with
  | [] => mret operationResult
  | subcommand :: rest =>
      operationResult ← Command_call fuel commands subcommand operationResult;
      run_subcommands fuel commands rest operationResult
  end.

(** The [while] loop of [execute] on the queue. *)
Fixpoint execute_queue (fuel : nat) (commands : gmap string Command)
    (queuedCommands : list Command) : IO unit :=
  match queuedCommands with
  | [] => mret tt
  | masterCommand :: rest =>
      operationResult ← Command_call0 fuel commands masterCommand;
      run_subcommands fuel commands (subcommands_m masterCommand) operationResult;;
      execute_queue fuel commands rest
  end.

Definition execute (fuel : nat) (self : Interpreter) : IO Interpreter :=
  execute_queue fuel (commands_m self) (queuedCommands_m self);;
  mret {| queuedCommands_m := []; commands_m := commands_m self |}.

(** One turn of the loop of [main]. *)
Definition read_line (fuel : nat) (self : Interpreter) (input : string) : IO Interpreter :=
  self ← enqueue_command self input;
  execute fuel self.

(** ** Notions used to state the properties *)

(** Tokenizing, compiling and then evaluating an expression. *)
Definition calculate (expression : string) : outcome Float32.float :=
  tokens ← Math.tokenize expression;
  postfix ← Math.parse_expression tokens;
  Math.evaluate_expression postfix.

(** Balanced parentheses: reading the tokens from left to right, no
    [RPAREN] comes without an open [LPAREN] before it, and none stays
    open at the end. *)
Fixpoint balanced_from (depth : nat) (tokens : list Math.Token) : bool :=
  match tokens with
  | [] => Nat.eqb depth 0
  | token :: tokens' =>
      match Math.type token with
      | Math.LPAREN => balanced_from (S depth) tokens'
      | Math.RPAREN =>
          match depth with
          | O => false
          | S depth' => balanced_from depth' tokens'
          end
      | _ => balanced_from depth tokens'
      end
  end.

Definition balanced (tokens : list Math.Token) : bool := balanced_from 0 tokens.

(** The number of [LPAREN] tokens on the operator stack. *)
Fixpoint count_left (expressionOperators : list Math.Token) : nat :=
  match expressionOperators with
  | [] => 0
  | top :: rest =>
      if Math.is_left_parenthesis top then S (count_left rest) else count_left rest
  end.

(** The binary numeral of a number: no leading zero, "0" for zero. *)
Fixpoint binary_of_positive (p : positive) : string :=
  match p with
  | xH => "1"
  | xO p' => binary_of_positive p' ++ "0"
  | xI p' => binary_of_positive p' ++ "1"
  end.

Definition binary (v : N) : string :=
  match v with
  | N0 => "0"
  | Npos p => binary_of_positive p
  end.

(** [s] with zeros in front up to [width] characters. *)
Definition zero_padded (width : nat) (s : string) : string :=
  zeros (width - String.length s) ++ s.

(** [width] bits can represent [v]. *)
Definition fits (width : nat) (v : N) : bool := (v <? 2 ^ N.of_nat width)%N.

(** The smallest of the widths 8, 16, 32 and 64 that can represent [v]. *)
Definition smallest_width (v : N) : option nat :=
  List.find (fun width => fits width v) [8; 16; 32; 64]%nat.

(** The value of a string made of decimal digits only. *)
Fixpoint digits_value (s : string) (acc : N) : option N :=
  match s with
  | EmptyString => Some acc
  | String c s' =>
      if is_digit c then digits_value s' (10 * acc + (N_of_ascii c - 48))%N
      else None
  end.

(** [s] parses as the unsigned integer [v]: it is a non-empty string of
    decimal digits whose value is [v]. *)
Definition unsigned_value (s : string) : option N :=
  match s with
  | EmptyString => None
  | _ => digits_value s 0
  end.

(** The similarity of an unknown name and a known one as the percentage
    it is, [(maxLen - distance) / maxLen * 100] in the rational numbers,
    where [maxLen] is the longer of the two lengths and [distance] is
    the distance [calculate_edit_distance] returns for the two names. *)
Definition similarity (unknownName knownName : string) : Q :=
  let maxLen := inject_Z (Z.of_N (N.max (size unknownName) (size knownName))) in
  let distance := inject_Z (Z.of_N (calculate_edit_distance unknownName knownName)) in
  ((maxLen - distance) / maxLen * 100)%Q.

(** What a queued master command stands for: its name and bound
    arguments, and those of its subcommands in order. *)
Definition stage (c : Command) : string * argument_t := (name_m c, arguments_m c).

Definition pipeline (c : Command) : (string * argument_t) * list (string * argument_t) :=
  (stage c, map stage (subcommands_m c)).

(** The pipelines queued by [input] on a fresh interpreter over the
    registered primitives. *)
Definition queued_pipelines (input : string)
  : outcome (list ((string * argument_t) * list (string * argument_t))) :=
  match fst (run (enqueue_command (Interpreter_new registered) input) []) with
  | Ok self => Ok (map pipeline (queuedCommands_m self))
  | Fail f => Fail f
  end.

(** The group [view] names a command of the registry. *)
Definition resolves (commands : gmap string Command) (view : list string) : bool :=
  match drop_while_pipe view with
  | Ok (name :: _) =>
      match commands !! c_str name with
      | Some _ => true
      | None => false
      end
  | _ => false
  end.

(** Reading the later groups in order, each names a command until one
    is reached whose name is not in the registry. *)
Fixpoint has_unresolved_stage (commands : gmap string Command) (views : chunks) : bool :=
  match views with
  | chunks_cons view rest =>
      match drop_while_pipe view with
      | Ok (name :: _) =>
          match commands !! c_str name with
          | Some _ => has_unresolved_stage commands rest
          | None => true
          end
      | _ => false
      end
  | _ => false
  end.

(** [s] contains the character [c]. *)
Fixpoint contains_char (c : ascii) (s : string) : bool :=
  match s with
  | EmptyString => false
  | String x s' => Ascii.eqb x c || contains_char c s'
  end.

(** Two chunk streams of the same shape whose chunks agree once the
    words beginning with a pipe are dropped from their front. *)
Inductive chunks_sim : chunks -> chunks -> Prop :=
  | chunks_sim_end : chunks_sim chunks_end chunks_end
  | chunks_sim_undefined : chunks_sim chunks_undefined chunks_undefined
  | chunks_sim_cons (chunk chunk' : list string) (rest rest' : chunks) :
      drop_while_pipe chunk = drop_while_pipe chunk' ->
      chunks_sim rest rest' ->
      chunks_sim (chunks_cons chunk rest) (chunks_cons chunk' rest').

(** A command whose action captures the registry declares an arity that
    [apply] cannot use as a count. *)
Definition capturing_is_variadic (c : Command) : bool :=
  match action_m c with
  | CapturingCommands => (to_difference (arguments_count c) <? 0)%Z
  | Captureless _ => true
  end.

(** The token [Lexer::tokenize] builds for a word of the given type and
    precedence. *)
Definition lexed (t : Math.Type_) (p : Math.Precedence) (word : string) : Math.Token :=
  {| Math.type := t; Math.precedence := p; Math.fixity := Math.LEFT; Math.value := word |}.

(** Both names are non-empty and begin with the same character. *)
Definition same_first (a b : string) : bool :=
  match front a, front b with
  | Some x, Some y => Ascii.eqb x y
  | _, _ => false
  end.

(** The lines listing the suggestions, one per name. *)
Fixpoint suggestion_lines (similarCommands : list string) : string :=
  match similarCommands with
  | [] => EmptyString
  | command :: rest => ("    - " ++ command ++ newline) ++ suggestion_lines rest
  end.

(** The text reporting an unknown name with its suggestions. *)
Definition report_text (commandName : string) (similarCommands : list string) : string :=
  ("the command `" ++ commandName ++ "` doesn't exist.")
    ++ match similarCommands with
       | [] => newline
       | _ => (" did you mean:" ++ newline) ++ suggestion_lines similarCommands
       end.

(** A program that, from any trace, only prints (it invokes the action
    of no command) and whose one abnormal outcome is undefined
    behaviour. *)
Definition quiet {A : Type} (m : IO A) : Prop :=
  forall trace : list event,
    exists out,
      snd (run m trace) = trace ++ out /\
      invoked out = [] /\
      forall f, fst (run m trace) = Fail f -> f = Undefined.



(** * Properties *)

(** ** EditDistance *)

Lemma calculate_edit_distance_same (x : string) : calculate_edit_distance x x = 0%N.
Proof.
  induction x as [|c x IH]; [reflexivity|].
  simpl. now rewrite Ascii.eqb_refl.
Qed.

(** What the function computes once both strings are non-empty: only
    the first characters are compared. *)
Lemma calculate_edit_distance_cons (f t : ascii) (from to : string) :
  calculate_edit_distance (String f from) (String t to)
  = if Ascii.eqb f t then 0%N else 1%N.
Proof.
  simpl. rewrite calculate_edit_distance_same.
  destruct (Ascii.eqb f t); [reflexivity|].
  unfold Size.min3. now rewrite !N.min_0_r.
Qed.

Lemma calculate_edit_distance_empty_r (x : string) :
  calculate_edit_distance x EmptyString = size x.
Proof. now destruct x. Qed.

(** C9: the distance from a string to itself is 0, and the distance is
    symmetric in its two arguments. *)
Theorem calculate_edit_distance_reflexive_symmetric :
  (forall x : string, calculate_edit_distance x x = 0%N) /\
  (forall x y : string, calculate_edit_distance x y = calculate_edit_distance y x).
Proof.
  split; [exact calculate_edit_distance_same|].
  intros [|f x] [|t y]; try reflexivity.
  rewrite !calculate_edit_distance_cons, (Ascii.eqb_sym f t). reflexivity.
Qed.

Lemma transforms_zero (a b : string) : transforms 0 a b -> a = b.
Proof. now inversion 1. Qed.

(** C2: on the strings "a" and "ab" the function returns 0, while their
    Levenshtein distance, the least number of single-character edits
    from the one to the other, is 1. *)
Theorem calculate_edit_distance_not_levenshtein :
  calculate_edit_distance "a" "ab" = 0%N /\ is_levenshtein 1 "a" "ab".
Proof.
  split; [reflexivity|]. split.
  - apply transforms_step with (b := "ab").
    + exact (edit_insert "a" EmptyString "b").
    + constructor.
  - intros [|m] H; [|lia].
    apply transforms_zero in H. discriminate.
Qed.

(** ** The expression engine *)

(** C6: tokenizing, compiling and evaluating [3 + 4 * 2] yields 11, and
    [( 3 + 4 ) * 2] yields 14. *)
Theorem calculate_precedence_and_parentheses :
  calculate "3 + 4 * 2" = Ok (Float32.of_Z 11) /\
  calculate "( 3 + 4 ) * 2" = Ok (Float32.of_Z 14).
Proof. split; vm_compute; reflexivity. Qed.

(** The postfix forms of the two expressions: the product is emitted before the sum
    in the first, the parenthesised sum before the product in the second. *)
Lemma parse_expression_examples :
  (tokens ← Math.tokenize "3 + 4 * 2"; postfix ← Math.parse_expression tokens;
   mret (map Math.value postfix)) = Ok ["3"; "4"; "2"; "*"; "+"] /\
  (tokens ← Math.tokenize "( 3 + 4 ) * 2"; postfix ← Math.parse_expression tokens;
   mret (map Math.value postfix)) = Ok ["3"; "4"; "+"; "2"; "*"].
Proof. split; vm_compute; reflexivity. Qed.

(** The two values as the interpreter would print them. *)
Lemma calculate_printed :
  Float32.ftos (Float32.of_Z 11) = "11" /\ Float32.ftos (Float32.of_Z 14) = "14".
Proof. split; vm_compute; reflexivity. Qed.

(** One operator step: the first value popped is the right-hand operand,
    the second the left-hand one. *)
Lemma evaluate_token_operator (token : Math.Token) (symbol : ascii)
    (later earlier : Float32.float) (stack : list Float32.float) :
  Math.type token = Math.OPERATOR ->
  front (Math.value token) = Some symbol ->
  Math.evaluate_token token (later :: earlier :: stack)
  = Ok (Math.apply_operator symbol later earlier :: stack).
Proof.
  intros Htype Hfront. unfold Math.evaluate_token. now rewrite Htype, Hfront.
Qed.

(** C7: for all number tokens [a] and [b], the postfix sequence [a b -]
    evaluates to [a - b] and [a b /] to [a / b]; at an operator the top
    of the stack is the right-hand operand and the value under it the
    left-hand one. *)
Theorem evaluate_expression_operand_order :
  (forall (a b : string) (pa pb po : Math.Precedence) (fa fb fo : Math.Fixity) (rest : string),
      Math.evaluate_expression
        [ {| Math.type := Math.NUMBER; Math.precedence := pa; Math.fixity := fa; Math.value := a |};
          {| Math.type := Math.NUMBER; Math.precedence := pb; Math.fixity := fb; Math.value := b |};
          {| Math.type := Math.OPERATOR; Math.precedence := po; Math.fixity := fo;
             Math.value := String "-" rest |} ]
      = Ok (Float32.sub (Float32.stof a) (Float32.stof b))) /\
  (forall (a b : string) (pa pb po : Math.Precedence) (fa fb fo : Math.Fixity) (rest : string),
      Math.evaluate_expression
        [ {| Math.type := Math.NUMBER; Math.precedence := pa; Math.fixity := fa; Math.value := a |};
          {| Math.type := Math.NUMBER; Math.precedence := pb; Math.fixity := fb; Math.value := b |};
          {| Math.type := Math.OPERATOR; Math.precedence := po; Math.fixity := fo;
             Math.value := String "/" rest |} ]
      = Ok (Float32.div (Float32.stof a) (Float32.stof b))) /\
  (forall (po : Math.Precedence) (fo : Math.Fixity) (rest : string)
          (right_operand left_operand : Float32.float) (stack : list Float32.float),
      Math.evaluate_token
        {| Math.type := Math.OPERATOR; Math.precedence := po; Math.fixity := fo;
           Math.value := String "-" rest |} (right_operand :: left_operand :: stack)
      = Ok (Float32.sub left_operand right_operand :: stack) /\
      Math.evaluate_token
        {| Math.type := Math.OPERATOR; Math.precedence := po; Math.fixity := fo;
           Math.value := String "/" rest |} (right_operand :: left_operand :: stack)
      = Ok (Float32.div left_operand right_operand :: stack)).
Proof.
  repeat split; intros; reflexivity.
Qed.

(** The orientation matters: with concrete numbers, [7 2 -] is 5 and
    [8 2 /] is 4. *)
Lemma evaluate_expression_operand_order_examples :
  (tokens ← Math.tokenize "7 2 -"; Math.evaluate_expression tokens) = Ok (Float32.of_Z 5) /\
  (tokens ← Math.tokenize "8 2 /"; Math.evaluate_expression tokens) = Ok (Float32.of_Z 4).
Proof. split; vm_compute; reflexivity. Qed.

(** *** The right parenthesis *)

Lemma count_left_none (ops : list Math.Token) :
  Forall (fun t => Math.is_left_parenthesis t = false) ops -> count_left ops = 0.
Proof.
  induction 1 as [|t ops Ht _ IH]; [reflexivity|].
  simpl. now rewrite Ht.
Qed.

Lemma pop_until_left_parenthesis_found (popped rest expression : list Math.Token)
    (lparen : Math.Token) :
  Forall (fun t => Math.is_left_parenthesis t = false) popped ->
  Math.is_left_parenthesis lparen = true ->
  Math.pop_until_left_parenthesis (popped ++ lparen :: rest) expression
  = (expression ++ popped, lparen :: rest).
Proof.
  intros Hpopped Hleft. revert expression.
  induction Hpopped as [|t popped Ht _ IH]; intros expression; simpl.
  - rewrite Hleft. now rewrite app_nil_r.
  - rewrite Ht, IH. now rewrite <- app_assoc.
Qed.

Lemma pop_until_left_parenthesis_missing (ops expression : list Math.Token) :
  Forall (fun t => Math.is_left_parenthesis t = false) ops ->
  Math.pop_until_left_parenthesis ops expression = (expression ++ ops, []).
Proof.
  intros Hops. revert expression.
  induction Hops as [|t ops Ht _ IH]; intros expression; simpl.
  - now rewrite app_nil_r.
  - rewrite Ht, IH. now rewrite <- app_assoc.
Qed.

(** The loop of the [RPAREN] case stops on a stack that is empty, when
    no [LPAREN] was there, or that starts with the first [LPAREN]. *)
Lemma pop_until_left_parenthesis_count (ops expression : list Math.Token) :
  match snd (Math.pop_until_left_parenthesis ops expression) with
  | [] => count_left ops = 0
  | lparen :: rest => count_left ops = S (count_left rest)
  end.
Proof.
  revert expression. induction ops as [|t ops IH]; intros expression; simpl.
  - reflexivity.
  - destruct (Math.is_left_parenthesis t) eqn:Ht; simpl.
    + reflexivity.
    + apply IH.
Qed.

(** The loop of the [OPERATOR] case never pops an [LPAREN]. *)
Lemma pop_operators_count (token : Math.Token) (ops expression : list Math.Token) :
  count_left (snd (Math.pop_operators token ops expression)) = count_left ops.
Proof.
  revert expression. induction ops as [|t ops IH]; intros expression; [reflexivity|].
  cbn [Math.pop_operators].
  destruct (Math.is_left_parenthesis t) eqn:Ht; [reflexivity|].
  cbn [orb].
  destruct (negb _); [reflexivity|].
  rewrite IH. simpl. now rewrite Ht.
Qed.

(** The invariant of the compiler: the stack holds as many [LPAREN]
    tokens as parentheses are open, so a balanced rest is compiled. *)
Lemma parse_tokens_balanced (tokens : list Math.Token) :
  forall (depth : nat) (expression ops : list Math.Token),
    count_left ops = depth ->
    balanced_from depth tokens = true ->
    exists state, Math.parse_tokens tokens (expression, ops) = Ok state.
Proof.
  induction tokens as [|token tokens IH]; intros depth expression ops Hcount Hbal.
  - eexists. reflexivity.
  - cbn [Math.parse_tokens balanced_from] in *.
    unfold Math.parse_token.
    destruct (Math.type token) eqn:Htype.
    + apply (IH depth); assumption.
    + destruct (Math.pop_operators token ops expression) as [expression' ops'] eqn:Hpop.
      apply (IH depth); [|assumption].
      pose proof (pop_operators_count token ops expression) as Hc.
      rewrite Hpop in Hc. simpl in Hc. simpl.
      unfold Math.is_left_parenthesis. rewrite Htype. simpl. congruence.
    + apply (IH (S depth)); [|assumption].
      simpl. unfold Math.is_left_parenthesis. rewrite Htype. simpl. congruence.
    + destruct depth as [|depth]; [discriminate|].
      pose proof (pop_until_left_parenthesis_count ops expression) as Hc.
      destruct (Math.pop_until_left_parenthesis ops expression) as [expression' ops'].
      simpl in Hc. destruct ops' as [|lparen rest]; [congruence|].
      apply (IH depth); [congruence|assumption].
Qed.

(** C8: at an [RPAREN] the compiler moves the operators above the first
    [LPAREN] to the output and discards that [LPAREN]; without an
    [LPAREN] on the stack the assertion fails; and a token sequence with
    balanced parentheses is always compiled, the assertion never failing. *)
Theorem parse_expression_right_parenthesis :
  (forall (token lparen : Math.Token) (expression popped rest : list Math.Token),
      Math.type token = Math.RPAREN ->
      Forall (fun t => Math.is_left_parenthesis t = false) popped ->
      Math.is_left_parenthesis lparen = true ->
      Math.parse_token token (expression, popped ++ lparen :: rest)
      = Ok (expression ++ popped, rest)) /\
  (forall (token : Math.Token) (expression ops : list Math.Token),
      Math.type token = Math.RPAREN ->
      Forall (fun t => Math.is_left_parenthesis t = false) ops ->
      Math.parse_token token (expression, ops)
      = Fail (AssertionFailed "MISMATCHING PARENTHESIS")) /\
  (forall tokens : list Math.Token,
      balanced tokens = true ->
      exists postfix, Math.parse_expression tokens = Ok postfix).
Proof.
  split; [|split].
  - intros token lparen expression popped rest Htype Hpopped Hleft.
    unfold Math.parse_token. rewrite Htype.
    now rewrite pop_until_left_parenthesis_found.
  - intros token expression ops Htype Hops.
    unfold Math.parse_token. rewrite Htype.
    now rewrite pop_until_left_parenthesis_missing.
  - intros tokens Hbal.
    destruct (parse_tokens_balanced tokens 0 [] [] eq_refl Hbal) as [[expression ops] Hstate].
    exists (expression ++ ops). unfold Math.parse_expression. now rewrite Hstate.
Qed.

(** ** Programs with output: the equations of [run] *)

Lemma run_ret {A : Type} (a : A) (trace : list event) :
  run (mret a) trace = (Ok a, trace).
Proof. reflexivity. Qed.

Lemma run_bind {A B : Type} (m : IO A) (k : A -> IO B) (trace : list event) :
  run (m ≫= k) trace
  = match run m trace with
    | (Ok a, trace') => run (k a) trace'
    | (Fail f, trace') => (Fail f, trace')
    end.
Proof. reflexivity. Qed.

(** ** The primitive [bin] *)

Lemma append_cons (x : ascii) (a b : string) :
  (String x a ++ b = String x (a ++ b))%string.
Proof. reflexivity. Qed.

Lemma append_assoc (a b c : string) : ((a ++ b) ++ c = a ++ (b ++ c))%string.
Proof.
  induction a as [|x a IH]; [reflexivity|].
  now rewrite !append_cons, IH.
Qed.

Lemma length_append (a b : string) :
  String.length (a ++ b) = String.length a + String.length b.
Proof.
  induction a as [|x a IH]; [reflexivity|].
  rewrite append_cons. simpl. now rewrite IH.
Qed.

Lemma bitset_to_string_zero (width : nat) : bitset_to_string width 0 = zeros width.
Proof. induction width as [|w IH]; simpl; [reflexivity|now rewrite IH]. Qed.

(** The last character of the bitset is the parity of the value; the
    characters before it are the bitset of the half. *)
Lemma bitset_to_string_snoc (width : nat) (v : N) :
  bitset_to_string (S width) v
  = (bitset_to_string width (N.div2 v)
       ++ String (if N.odd v then "1" else "0")%char EmptyString)%string.
Proof.
  induction width as [|w IH].
  - simpl. now rewrite N.bit0_odd.
  - change (bitset_to_string (S (S w)) v)
      with (String (if N.testbit v (N.of_nat (S w)) then "1" else "0")%char
                   (bitset_to_string (S w) v)).
    rewrite IH.
    change (bitset_to_string (S w) (N.div2 v))
      with (String (if N.testbit (N.div2 v) (N.of_nat w) then "1" else "0")%char
                   (bitset_to_string w (N.div2 v))).
    rewrite Nat2N.inj_succ, N.testbit_succ_r_div2 by apply N.le_0_l.
    rewrite N.div2_div. reflexivity.
Qed.

Lemma zeros_snoc (n : nat) : (zeros n ++ "0" = zeros (S n))%string.
Proof.
  induction n as [|n IH]; [reflexivity|].
  change (zeros (S n)) with (String "0" (zeros n)).
  now rewrite append_cons, IH.
Qed.

Lemma bitset_to_string_positive (p : positive) :
  forall width : nat,
    (Npos p < 2 ^ N.of_nat width)%N ->
    bitset_to_string width (Npos p)
    = zero_padded width (binary_of_positive p).
Proof.
  unfold zero_padded.
  induction p as [p IH|p IH|]; intros [|w] Hlt;
    try (simpl in Hlt; lia);
    rewrite Nat2N.inj_succ, N.pow_succ_r' in Hlt;
    rewrite bitset_to_string_snoc.
  - change (N.div2 (N.pos p~1)) with (N.pos p). rewrite IH by lia.
    simpl binary_of_positive. rewrite length_append, append_assoc. simpl String.length.
    replace (S w - (String.length (binary_of_positive p) + 1))
      with (w - String.length (binary_of_positive p)) by lia.
    reflexivity.
  - change (N.div2 (N.pos p~0)) with (N.pos p). rewrite IH by lia.
    simpl binary_of_positive. rewrite length_append, append_assoc. simpl String.length.
    replace (S w - (String.length (binary_of_positive p) + 1))
      with (w - String.length (binary_of_positive p)) by lia.
    reflexivity.
  - change (N.div2 1) with 0%N. rewrite bitset_to_string_zero.
    simpl. now rewrite Nat.sub_0_r.
Qed.

(** The bitset of a value that fits is its binary numeral, zero-padded. *)
Lemma bitset_to_string_binary (width : nat) (v : N) :
  fits (S width) v = true ->
  bitset_to_string (S width) v = zero_padded (S width) (binary v).
Proof.
  unfold fits. intros Hfits. apply N.ltb_lt in Hfits.
  destruct v as [|p].
  - rewrite bitset_to_string_zero. unfold zero_padded. simpl.
    rewrite Nat.sub_0_r. now rewrite zeros_snoc.
  - now apply bitset_to_string_positive.
Qed.

Lemma is_digit_not_space (c : ascii) : is_digit c = true -> is_space c = false.
Proof.
  unfold is_digit, is_space. intros H.
  apply andb_true_iff in H as [Hlo Hhi].
  apply N.leb_le in Hlo. apply N.leb_le in Hhi.
  apply orb_false_iff. split.
  - apply N.eqb_neq. lia.
  - apply andb_false_iff. right. apply N.leb_gt. lia.
Qed.

Lemma is_digit_no_sign (c : ascii) (s : string) :
  is_digit c = true -> read_sign (String c s) = (false, String c s).
Proof.
  intros H.
  destruct c as [[] [] [] [] [] [] [] []]; vm_compute in H; try discriminate H; reflexivity.
Qed.

Lemma read_digits_value (s : string) :
  forall (acc v : N) (count : nat),
    digits_value s acc = Some v ->
    read_digits s (Z.of_N acc) count = (Z.of_N v, count + String.length s, EmptyString).
Proof.
  induction s as [|c s IH]; intros acc v count Hvalue; simpl in *.
  - injection Hvalue as <-. now rewrite Nat.add_0_r.
  - destruct (is_digit c) eqn:Hdigit; [|discriminate].
    apply IH with (count := S count) in Hvalue.
    replace (10 * Z.of_N acc + digit_value c)%Z
      with (Z.of_N (10 * acc + (N_of_ascii c - 48))).
    + rewrite Hvalue. f_equal. f_equal. lia.
    + unfold digit_value. unfold is_digit in Hdigit.
      apply andb_true_iff in Hdigit as [Hlo _]. apply N.leb_le in Hlo. lia.
Qed.

(** On a string that parses as an unsigned integer in the range of
    [std::size_t], the extraction stores that integer. *)
Lemma stoul_unsigned_value (s : string) (v : N) :
  unsigned_value s = Some v -> (v <= Size.max)%N -> stoul s = v.
Proof.
  destruct s as [|c s]; [discriminate|].
  unfold unsigned_value. intros Hvalue Hmax.
  assert (Hdigit : is_digit c = true).
  { simpl in Hvalue. destruct (is_digit c); [reflexivity|discriminate]. }
  unfold stoul.
  change (skipws (String c s)) with (if is_space c then skipws s else String c s).
  rewrite (is_digit_not_space c Hdigit), (is_digit_no_sign c s Hdigit).
  change 0%Z with (Z.of_N 0).
  rewrite (read_digits_value (String c s) 0 v 0 Hvalue).
  cbn [String.length Nat.add].
  destruct (Z.ltb_spec (Z.of_N Size.max) (Z.of_N v)) as [Hgt|_]; [lia|].
  apply N2Z.id.
Qed.

(** Whatever the argument, the stored value is in the range of
    [std::size_t]. *)
Lemma stoul_in_range (s : string) : (stoul s <= Size.max)%N.
Proof.
  unfold stoul.
  destruct (read_sign (skipws s)) as [neg s1].
  destruct (read_digits s1 0 0) as [[v count] rest].
  destruct count as [|count]; [unfold Size.max; lia|].
  destruct (Z.ltb_spec (Z.of_N Size.max) v) as [Hgt|Hle]; [lia|].
  destruct neg.
  - unfold Size.wrap, Size.max.
    pose proof (Z.mod_pos_bound (- v) (2 ^ 64) ltac:(lia)) as Hbound. lia.
  - unfold Size.max in *. lia.
Qed.

(** C10: on an argument that parses as an unsigned integer [v] (in the
    range of [std::size_t]) the primitive [bin] returns the single
    string "0b" followed by the binary numeral of [v] zero-padded to the
    smallest of the widths 8, 16, 32 and 64 that can represent [v]; and
    whatever its arguments, it never reaches [std::unreachable()]. *)
Theorem bin_smallest_width :
  (forall (s : string) (rest : argument_t) (v : N) (trace : list event),
      unsigned_value s = Some v ->
      (v <= Size.max)%N ->
      exists width : nat,
        smallest_width v = Some width /\
        run (Primitive.bin (s :: rest)) trace
        = (Ok [("0b" ++ zero_padded width (binary v))%string], trace)) /\
  (forall (arguments : argument_t) (trace : list event),
      fst (run (Primitive.bin arguments) trace) <> Fail Undefined).
Proof.
  split.
  - intros s rest v trace Hvalue Hmax.
    unfold Primitive.bin, at_. cbn [nth_error].
    rewrite run_bind, run_ret, (stoul_unsigned_value s v Hvalue Hmax).
    unfold smallest_width. cbn [List.find].
    destruct (N.leb_spec v 255) as [H8|H8].
    { exists 8%nat. replace (fits 8 v) with true
        by (symmetry; apply N.ltb_lt; change (2 ^ N.of_nat 8)%N with 256%N; lia).
      split; [reflexivity|].
      rewrite run_ret, bitset_to_string_binary; [reflexivity|].
      apply N.ltb_lt. change (2 ^ N.of_nat 8)%N with 256%N. lia. }
    replace (fits 8 v) with false
      by (symmetry; apply N.ltb_ge; change (2 ^ N.of_nat 8)%N with 256%N; lia).
    destruct (N.leb_spec v 65535) as [H16|H16].
    { exists 16%nat. replace (fits 16 v) with true
        by (symmetry; apply N.ltb_lt; change (2 ^ N.of_nat 16)%N with 65536%N; lia).
      split; [reflexivity|].
      rewrite run_ret, bitset_to_string_binary; [reflexivity|].
      apply N.ltb_lt. change (2 ^ N.of_nat 16)%N with 65536%N. lia. }
    replace (fits 16 v) with false
      by (symmetry; apply N.ltb_ge; change (2 ^ N.of_nat 16)%N with 65536%N; lia).
    destruct (N.leb_spec v 4294967295) as [H32|H32].
    { exists 32%nat. replace (fits 32 v) with true
        by (symmetry; apply N.ltb_lt; change (2 ^ N.of_nat 32)%N with 4294967296%N; lia).
      split; [reflexivity|].
      rewrite run_ret, bitset_to_string_binary; [reflexivity|].
      apply N.ltb_lt. change (2 ^ N.of_nat 32)%N with 4294967296%N. lia. }
    replace (fits 32 v) with false
      by (symmetry; apply N.ltb_ge; change (2 ^ N.of_nat 32)%N with 4294967296%N; lia).
    assert (H64 : (v < 2 ^ N.of_nat 64)%N).
    { change (2 ^ N.of_nat 64)%N with 18446744073709551616%N. unfold Size.max in Hmax. lia. }
    exists 64%nat. replace (fits 64 v) with true by (symmetry; now apply N.ltb_lt).
    split; [reflexivity|].
    destruct (N.leb_spec v 18446744073709551615) as [_|Hover];
      [|change (2 ^ N.of_nat 64)%N with 18446744073709551616%N in H64; lia].
    rewrite run_ret, bitset_to_string_binary; [reflexivity|].
    now apply N.ltb_lt.
  - intros [|first rest] trace.
    + discriminate.
    + unfold Primitive.bin, at_. cbn [nth_error].
      rewrite run_bind, run_ret.
      pose proof (stoul_in_range first) as Hrange. unfold Size.max in Hrange.
      destruct (N.leb_spec (stoul first) 255); [discriminate|].
      destruct (N.leb_spec (stoul first) 65535); [discriminate|].
      destruct (N.leb_spec (stoul first) 4294967295); [discriminate|].
      destruct (N.leb_spec (stoul first) 18446744073709551615); [discriminate|].
      lia.
Qed.

(** ** The primitive [apply] *)

Lemma registered_apply :
  registered !! "apply" = Some (Command_new "apply" Size.max CapturingCommands).
Proof. vm_compute. reflexivity. Qed.

(** The calls [apply] makes on the example, one by one: the streamed
    word comes first, the fixed argument after it. *)
Lemma sub_streamed_first :
  map (fun w => fst (run (Primitive.sub [w; "10"]) [])) ["1"; "2"; "3"]
  = [Ok ["-9"]; Ok ["-8"]; Ok ["-7"]].
Proof. vm_compute. reflexivity. Qed.

(** C1, as the code has it: [apply] called with
    ["sub"; "10"; "1"; "2"; "3"] returns ["-9"; "-8"; "-7"].  For every
    remaining word [w], in input order, the target is invoked with [w]
    followed by the fixed argument, that is [sub(1, 10)], [sub(2, 10)],
    [sub(3, 10)], and the first output of each invocation is collected. *)
Theorem apply_sub_streams_first :
  forall fuel : nat,
    run (Command_call (S (S fuel)) registered
           (Command_new "apply" Size.max CapturingCommands)
           ["sub"; "10"; "1"; "2"; "3"]) []
    = (Ok ["-9"; "-8"; "-7"],
       [Invoked "apply"; Invoked "sub"; Invoked "sub"; Invoked "sub"])
    /\ map (fun w => fst (run (Primitive.sub [w; "10"]) [])) ["1"; "2"; "3"]
       = [Ok ["-9"]; Ok ["-8"]; Ok ["-7"]].
Proof.
  intros fuel. split; vm_compute; reflexivity.
Qed.

(** C1 as stated fails: the result is not ["9"; "8"; "7"]. *)
Lemma apply_sub_not_9_8_7 :
  fst (run (Command_call 2 registered
              (Command_new "apply" Size.max CapturingCommands)
              ["sub"; "10"; "1"; "2"; "3"]) [])
  <> Ok ["9"; "8"; "7"].
Proof. vm_compute. discriminate. Qed.

(** The loop of [apply] over a target without effects: every streamed
    word is put in front of the fixed arguments, and the first output of
    each call is kept, in order. *)
Lemma apply_each_pure (f : argument_t -> return_t) (fixed stream : argument_t) :
  forall (result : return_t) (trace : list event),
    run (Primitive.apply_each (fun arguments => mret (f arguments)) fixed stream result) trace
    = (Ok (result ++ flat_map (fun w => List.firstn 1 (f (w :: fixed))) stream), trace).
Proof.
  induction stream as [|w stream IH]; intros result trace.
  - simpl. now rewrite app_nil_r.
  - cbn [Primitive.apply_each flat_map]. rewrite run_bind, run_ret, IH.
    destruct (f (w :: fixed)) as [|x rest]; simpl.
    + reflexivity.
    + now rewrite <- app_assoc.
Qed.

(** ** SuggestionReporter *)

Lemma invoked_app (trace trace' : list event) :
  invoked (trace ++ trace') = invoked trace ++ invoked trace'.
Proof.
  induction trace as [|[text|name] trace IH]; simpl; [reflexivity|assumption|].
  now rewrite IH.
Qed.

Lemma invoked_printed (trace : list event) (text : string) :
  invoked (trace ++ [Printed text]) = invoked trace.
Proof. rewrite invoked_app. simpl. now rewrite app_nil_r. Qed.

Lemma print_suggestions_run (similarCommands : list string) :
  forall trace : list event,
    exists trace',
      run (print_suggestions similarCommands) trace = (Ok tt, trace') /\
      invoked trace' = invoked trace.
Proof.
  induction similarCommands as [|command rest IH]; intros trace.
  - exists trace. split; reflexivity.
  - destruct (IH (trace ++ [Printed (("    - " ++ command) ++ newline)%string]))
      as (trace' & Hrun & Hinvoked).
    exists trace'. split.
    + cbn [print_suggestions]. rewrite run_bind. exact Hrun.
    + now rewrite Hinvoked, invoked_printed.
Qed.

Lemma size_cons (c : ascii) (s : string) : size (String c s) = N.succ (size s).
Proof. unfold size. simpl String.length. lia. Qed.

(** The distance never exceeds the longer of the two lengths, so the
    subtraction of the filter does not wrap. *)
Lemma calculate_edit_distance_bound (a b : string) :
  (calculate_edit_distance a b <= N.max (size a) (size b))%N.
Proof.
  destruct a as [|x a]; [simpl; lia|].
  destruct b as [|y b]; [simpl calculate_edit_distance; lia|].
  rewrite calculate_edit_distance_cons, !size_cons.
  destruct (Ascii.eqb x y); lia.
Qed.

(** The quotient of the filter is taken in unsigned integers: it is 1
    when the distance is 0 and 0 otherwise, so the filter keeps a name
    exactly when its distance is 0.  It is undefined only when both
    names are empty (a division by zero).  Sizes are those of strings
    held in memory, below [2 ^ 64]. *)
Lemma is_similar_distance (commandName value : string) :
  N.max (size commandName) (size value) <> 0%N ->
  (N.max (size commandName) (size value) <= Size.max)%N ->
  is_similar commandName value
  = Ok (calculate_edit_distance commandName value =? 0)%N.
Proof.
  intros Hmax Hsize. unfold is_similar, Size.div.
  pose proof (calculate_edit_distance_bound commandName value) as Hbound.
  set (maxLen := N.max (size commandName) (size value)) in *.
  set (distance := calculate_edit_distance commandName value) in *.
  destruct (N.eqb_spec maxLen 0) as [|_]; [contradiction|].
  unfold Size.max in Hsize.
  assert (Hsub : Size.sub maxLen distance = (maxLen - distance)%N).
  { unfold Size.sub, Size.wrap. rewrite Z.mod_small by lia. lia. }
  rewrite Hsub.
  destruct (N.eqb_spec distance 0) as [->|Hdistance].
  - rewrite N.sub_0_r, N.div_same by assumption. reflexivity.
  - rewrite N.div_small by lia. reflexivity.
Qed.

(** The distance of a non-empty name to another is 0 exactly when the
    two begin with the same character. *)
Lemma same_first_distance (commandName value : string) :
  commandName <> EmptyString ->
  same_first commandName value = true <-> calculate_edit_distance commandName value = 0%N.
Proof.
  intros Hne. destruct commandName as [|x a]; [contradiction|].
  destruct value as [|y b].
  - cbn [same_first front]. rewrite calculate_edit_distance_empty_r, size_cons.
    split; [discriminate|lia].
  - cbn [same_first front]. rewrite calculate_edit_distance_cons.
    destruct (Ascii.eqb x y); split; (reflexivity || discriminate).
Qed.

Lemma filter_similar_same_first (commandName : string) (keys : list string) :
  commandName <> EmptyString ->
  (size commandName <= Size.max)%N ->
  forallb (fun k => (size k <=? Size.max)%N) keys = true ->
  filter_similar commandName keys = Ok (List.filter (same_first commandName) keys).
Proof.
  intros Hne Hsize. induction keys as [|value keys IH]; intros Hkeys; [reflexivity|].
  cbn [forallb] in Hkeys. apply andb_true_iff in Hkeys as [Hvalue Hkeys].
  apply N.leb_le in Hvalue.
  assert (Hpos : size commandName <> 0%N).
  { destruct commandName; [contradiction|]. rewrite size_cons. lia. }
  cbn [filter_similar List.filter].
  rewrite is_similar_distance by lia. rewrite (IH Hkeys).
  assert (Hsame : (calculate_edit_distance commandName value =? 0)%N
                  = same_first commandName value).
  { destruct (same_first commandName value) eqn:Hfirst.
    - now apply N.eqb_eq, same_first_distance.
    - apply N.eqb_neq. intros Hzero.
      apply same_first_distance in Hzero; [congruence|assumption]. }
  rewrite Hsame. now destruct (same_first commandName value).
Qed.

Lemma registered_keys :
  (map_to_list registered).*1
  = ["sub"; "mul"; "echo"; "iota"; "quit"; "add"; "apply"; "bin"; "div"; "hex"].
Proof. vm_compute. reflexivity. Qed.

Lemma registered_known (name : string) :
  is_Some (registered !! name) <-> In name (map_to_list registered).*1.
Proof.
  rewrite <- list_elem_of_In, list_elem_of_fmap. split.
  - intros [command Hcommand]. exists (name, command). split; [reflexivity|].
    now apply elem_of_map_to_list.
  - intros ([name' command] & -> & Hin). exists command.
    now apply elem_of_map_to_list in Hin.
Qed.


Lemma filter_similar_defined (commandName : string) (keys : list string) :
  commandName <> EmptyString ->
  exists suggestions, filter_similar commandName keys = Ok suggestions.
Proof.
  intros Hne. induction keys as [|value keys [rest Hrest]].
  - exists []. reflexivity.
  - cbn [filter_similar]. unfold is_similar, Size.div.
    destruct (N.eqb_spec (N.max (size commandName) (size value)) 0) as [Hzero|_].
    + destruct commandName; [contradiction|]. rewrite size_cons in Hzero. lia.
    + rewrite Hrest. eexists. reflexivity.
Qed.

(** Reporting an unknown, non-empty name only prints. *)
Lemma handle_non_existing_command_run (availableCommands : gmap string Command)
    (commandName : string) (trace : list event) :
  commandName <> EmptyString ->
  exists trace',
    run (handle_non_existing_command availableCommands commandName) trace = (Ok tt, trace') /\
    invoked trace' = invoked trace.
Proof.
  intros Hne. unfold handle_non_existing_command, similar_commands.
  destruct (filter_similar_defined commandName (map_to_list availableCommands).*1 Hne)
    as [suggestions Hsuggestions].
  rewrite run_bind. cbn [print emit run]. rewrite run_bind.
  cbn [lift run]. rewrite Hsuggestions.
  destruct suggestions as [|command rest].
  - eexists. split; [reflexivity|]. now rewrite !invoked_printed.
  - rewrite run_bind. cbn [println emit run].
    destruct (print_suggestions_run (command :: rest)
                ((trace ++ [Printed ("the command `" ++ commandName ++ "` doesn't exist.")%string])
                   ++ [Printed (" did you mean:" ++ newline)%string]))
      as (trace' & Hrun & Hinvoked).
    exists trace'. split; [exact Hrun|].
    now rewrite Hinvoked, !invoked_printed.
Qed.

(** ** CommandRegistry *)

Lemma command_found (commands : gmap string Command) (commandName : string)
    (found : Command) (trace : list event) :
  commands !! c_str commandName = Some found ->
  run (Commands.command commands commandName) trace = (Ok (Some found), trace).
Proof. intros Hfound. unfold Commands.command. now rewrite Hfound. Qed.

Lemma command_not_found (commands : gmap string Command) (commandName : string)
    (trace : list event) :
  commandName <> EmptyString ->
  commands !! c_str commandName = None ->
  exists trace',
    run (Commands.command commands commandName) trace = (Ok None, trace') /\
    invoked trace' = invoked trace.
Proof.
  intros Hne Hmissing. unfold Commands.command. rewrite Hmissing.
  destruct (handle_non_existing_command_run commands commandName trace Hne)
    as (trace' & Hrun & Hinvoked).
  exists trace'. split; [|exact Hinvoked].
  rewrite run_bind, Hrun. reflexivity.
Qed.

(** ** PipelineInterpreter *)

Lemma drop_while_pipe_name (input : list string) (name : string) (arguments : list string) :
  drop_while_pipe input = Ok (name :: arguments) -> name <> EmptyString.
Proof.
  induction input as [|value rest IH]; [discriminate|].
  cbn [drop_while_pipe].
  destruct (front value) as [c|] eqn:Hfront; [|discriminate].
  destruct (Ascii.eqb c "|"); [exact IH|].
  intros [= <- _] ->. discriminate.
Qed.

Lemma fnParseCommand_found (commands : gmap string Command) (input : list string)
    (name : string) (arguments : list string) (found : Command) (trace : list event) :
  drop_while_pipe input = Ok (name :: arguments) ->
  commands !! c_str name = Some found ->
  run (fnParseCommand commands input) trace
  = (Ok (Some (fold_left push_back_argument arguments found)), trace).
Proof.
  intros Hview Hfound. unfold fnParseCommand.
  rewrite run_bind. cbn [lift run]. rewrite Hview.
  rewrite run_bind, (command_found _ _ _ _ Hfound). reflexivity.
Qed.

Lemma fnParseCommand_not_found (commands : gmap string Command) (input : list string)
    (name : string) (arguments : list string) (trace : list event) :
  drop_while_pipe input = Ok (name :: arguments) ->
  commands !! c_str name = None ->
  exists trace',
    run (fnParseCommand commands input) trace = (Ok None, trace') /\
    invoked trace' = invoked trace.
Proof.
  intros Hview Hmissing. unfold fnParseCommand.
  destruct (command_not_found commands name trace
              (drop_while_pipe_name _ _ _ Hview) Hmissing) as (trace' & Hrun & Hinvoked).
  exists trace'. split; [|exact Hinvoked].
  rewrite run_bind. cbn [lift run]. rewrite Hview.
  rewrite run_bind, Hrun. reflexivity.
Qed.

(** The loop over the later stages stops at the first name that does not
    resolve, having run nothing. *)
Lemma parse_subcommands_unresolved (commands : gmap string Command) (views : chunks) :
  has_unresolved_stage commands views = true ->
  forall (masterCommand : Command) (trace : list event),
    exists trace',
      run (parse_subcommands commands views masterCommand) trace = (Ok None, trace') /\
      invoked trace' = invoked trace.
Proof.
  induction views as [|view rest IH|]; [discriminate| |discriminate].
  cbn [has_unresolved_stage]. intros Hunresolved masterCommand trace.
  destruct (drop_while_pipe view) as [[|name arguments]|] eqn:Hview; try discriminate.
  cbn [parse_subcommands]. rewrite run_bind.
  destruct (commands !! c_str name) as [found|] eqn:Hlookup.
  - rewrite (fnParseCommand_found _ _ _ _ _ _ Hview Hlookup).
    apply IH. exact Hunresolved.
  - destruct (fnParseCommand_not_found _ _ _ _ trace Hview Hlookup)
      as (trace' & Hrun & Hinvoked).
    exists trace'. rewrite Hrun. split; [reflexivity|exact Hinvoked].
Qed.

Lemma execute_empty (fuel : nat) (self : Interpreter) (trace : list event) :
  queuedCommands_m self = [] ->
  run (execute fuel self) trace = (Ok self, trace).
Proof.
  destruct self as [queue commands]. simpl. intros ->. reflexivity.
Qed.

(** C5: when the master command of a line resolves and a later stage
    names a command that is not in the registry, [enqueue_command]
    returns with the interpreter, and so its queue, unchanged, and the
    action of no command has been invoked; run on an empty queue, the
    whole turn of the main loop invokes no action either. *)
Theorem enqueue_command_unresolved_subcommand
    (self : Interpreter) (input : string) (first : list string) (rest : chunks)
    (trace : list event) :
  chunk_by (split " " input) = chunks_cons first rest ->
  resolves (commands_m self) first = true ->
  has_unresolved_stage (commands_m self) rest = true ->
  exists trace',
    run (enqueue_command self input) trace = (Ok self, trace') /\
    invoked trace' = invoked trace /\
    (queuedCommands_m self = [] ->
     forall fuel, run (read_line fuel self input) trace = (Ok self, trace')).
Proof.
  intros Hchunks Hmaster Hlater.
  unfold resolves in Hmaster.
  destruct (drop_while_pipe first) as [[|name arguments]|] eqn:Hview; try discriminate.
  destruct (commands_m self !! c_str name) as [found|] eqn:Hlookup; [|discriminate].
  destruct (parse_subcommands_unresolved _ _ Hlater
              (fold_left push_back_argument arguments found) trace)
    as (trace' & Hrun & Hinvoked).
  assert (Henqueue : run (enqueue_command self input) trace = (Ok self, trace')).
  { unfold enqueue_command. rewrite Hchunks, run_bind.
    rewrite (fnParseCommand_found _ _ _ _ _ _ Hview Hlookup).
    rewrite run_bind, Hrun. reflexivity. }
  exists trace'. split; [exact Henqueue|]. split; [exact Hinvoked|].
  intros Hempty fuel. unfold read_line.
  rewrite run_bind, Henqueue. now apply execute_empty.
Qed.

(** An instance of C5: [echo a | foo]. *)
Lemma enqueue_command_unresolved_subcommand_witness :
  exists trace',
    run (enqueue_command (Interpreter_new registered) "echo a | foo") []
    = (Ok (Interpreter_new registered), trace') /\
    invoked trace' = invoked [] /\
    (queuedCommands_m (Interpreter_new registered) = [] ->
     forall fuel,
       run (read_line fuel (Interpreter_new registered) "echo a | foo") []
       = (Ok (Interpreter_new registered), trace')).
Proof.
  apply (enqueue_command_unresolved_subcommand
           (Interpreter_new registered) "echo a | foo"
           ["echo"; "a"] (chunks_cons ["|"; "foo"] chunks_end) []);
    vm_compute; reflexivity.
Defined.

(** C4: entering the unknown name [eco] (alone or with arguments) with
    the registered primitives queues no pipeline and prints a suggestion
    list that contains [echo].  The rule of the claim, that a known name
    is suggested exactly when its similarity percentage is greater than
    70, is not the one the code follows: [echo] is registered, the
    distance of [cho] and [echo] is 1 (as the code computes it, and as
    the least number of edits), the longer length is 4, so the
    similarity is 75 percent, above 70; yet the filter rejects [echo],
    entering [cho] suggests nothing and prints the not-found sentence
    alone.  [eco] gets its suggestion with a computed distance of 0. *)
Theorem eco_suggests_echo_cho_does_not :
  queued_pipelines "eco" = Ok [] /\
  queued_pipelines "eco 1 2" = Ok [] /\
  similar_commands registered "eco" = Ok ["echo"] /\
  printed (snd (run (enqueue_command (Interpreter_new registered) "eco 1 2") []))
  = ("the command `eco` doesn't exist. did you mean:" ++ newline
       ++ "    - echo" ++ newline)%string /\
  calculate_edit_distance "eco" "echo" = 0%N /\
  is_Some (registered !! "echo") /\
  calculate_edit_distance "cho" "echo" = 1%N /\
  is_levenshtein 1 "cho" "echo" /\
  (similarity "cho" "echo" == 75)%Q /\
  (70 < similarity "cho" "echo")%Q /\
  is_similar "cho" "echo" = Ok false /\
  similar_commands registered "cho" = Ok [] /\
  queued_pipelines "cho" = Ok [] /\
  printed (snd (run (enqueue_command (Interpreter_new registered) "cho") []))
  = ("the command `cho` doesn't exist." ++ newline)%string.
Proof.
  split; [vm_compute; reflexivity|].
  split; [vm_compute; reflexivity|].
  split; [vm_compute; reflexivity|].
  split; [vm_compute; reflexivity|].
  split; [reflexivity|].
  split.
  { apply (proj2 (registered_known "echo")). rewrite registered_keys.
    simpl. tauto. }
  split; [reflexivity|].
  split.
  { split.
    - apply transforms_step with (b := "echo").
      + exact (edit_insert EmptyString "cho" "e").
      + constructor.
    - intros [|m] H; [|lia].
      apply transforms_zero in H. discriminate. }
  split; [reflexivity|].
  split; [reflexivity|].
  split; [reflexivity|].
  split; [vm_compute; reflexivity|].
  split; [vm_compute; reflexivity|].
  vm_compute; reflexivity.
Qed.

(** *** Words that begin with a pipe *)

Lemma drop_while_pipe_pipe (word : string) (rest : list string) :
  front word = Some "|"%char ->
  drop_while_pipe (word :: rest) = drop_while_pipe rest.
Proof. intros Hfront. cbn [drop_while_pipe]. now rewrite Hfront. Qed.

Lemma fnParseCommand_view (commands : gmap string Command) (input input' : list string)
    (trace : list event) :
  drop_while_pipe input = drop_while_pipe input' ->
  run (fnParseCommand commands input) trace = run (fnParseCommand commands input') trace.
Proof.
  intros Hview. unfold fnParseCommand. rewrite !run_bind. cbn [lift run].
  now rewrite Hview.
Qed.

Lemma chunks_sim_refl (views : chunks) : chunks_sim views views.
Proof. induction views; constructor; auto. Qed.

Lemma parse_subcommands_sim (commands : gmap string Command) (views views' : chunks) :
  chunks_sim views views' ->
  forall (masterCommand : Command) (trace : list event),
    run (parse_subcommands commands views masterCommand) trace
    = run (parse_subcommands commands views' masterCommand) trace.
Proof.
  induction 1 as [| |chunk chunk' rest rest' Hchunk _ IH]; intros masterCommand trace;
    try reflexivity.
  cbn [parse_subcommands]. rewrite !run_bind.
  rewrite (fnParseCommand_view commands chunk chunk' trace Hchunk).
  destruct (run (fnParseCommand commands chunk') trace) as [[[subcommand|]|f] trace'];
    try reflexivity.
  apply IH.
Qed.

(** A chunk that starts with one word beginning with a pipe or with
    another is parsed alike. *)
Lemma chunk_by_from_sim_head (g g' : string) (post : list string) :
  front g = Some "|"%char ->
  front g' = Some "|"%char ->
  forall t : list string,
    chunks_sim (chunk_by_from (g :: t) post) (chunk_by_from (g' :: t) post).
Proof.
  intros Hg Hg'. induction post as [|w post IH]; intros t.
  - cbn [chunk_by_from]. constructor; [|constructor].
    now rewrite !drop_while_pipe_pipe.
  - cbn [chunk_by_from]. destruct (front w) as [c|]; [|constructor].
    destruct (Ascii.eqb c "|").
    + constructor; [|apply chunks_sim_refl].
      now rewrite !drop_while_pipe_pipe.
    + apply (IH (t ++ [w])).
Qed.

Lemma chunk_by_from_sim (g g' : string) (post : list string) :
  front g = Some "|"%char ->
  front g' = Some "|"%char ->
  forall (pre chunk : list string),
    chunks_sim (chunk_by_from chunk (pre ++ g :: post))
               (chunk_by_from chunk (pre ++ g' :: post)).
Proof.
  intros Hg Hg'. induction pre as [|w pre IH]; intros chunk.
  - cbn [app chunk_by_from]. rewrite Hg, Hg'. cbn [Ascii.eqb Bool.eqb].
    constructor; [reflexivity|].
    now apply chunk_by_from_sim_head.
  - cbn [app chunk_by_from]. destruct (front w) as [c|]; [|constructor].
    destruct (Ascii.eqb c "|").
    + constructor; [reflexivity|]. apply IH.
    + apply IH.
Qed.

Lemma chunk_by_sim (g g' : string) (pre post : list string) :
  front g = Some "|"%char ->
  front g' = Some "|"%char ->
  chunks_sim (chunk_by (pre ++ g :: post)) (chunk_by (pre ++ g' :: post)).
Proof.
  intros Hg Hg'. destruct pre as [|w pre]; cbn [app chunk_by].
  - now apply chunk_by_from_sim_head.
  - now apply chunk_by_from_sim.
Qed.

(** *** Lines and their words *)

Lemma append_nil_r (s : string) : (s ++ EmptyString = s)%string.
Proof.
  induction s as [|c s IH]; [reflexivity|].
  now rewrite append_cons, IH.
Qed.

Lemma split_from_word (sep : ascii) (w : string) :
  contains_char sep w = false ->
  forall s piece : string,
    split_from sep (w ++ s) piece = split_from sep s (piece ++ w).
Proof.
  induction w as [|c w IH]; intros Hw s piece.
  - now rewrite append_nil_r.
  - cbn [contains_char] in Hw. apply orb_false_iff in Hw as [Hc Hw].
    rewrite append_cons. cbn [split_from]. rewrite Hc, (IH Hw).
    now rewrite append_assoc.
Qed.

Lemma split_from_join_with (sep : ascii) (ws : list string) :
  forall w : string,
    Forall (fun w => contains_char sep w = false) (w :: ws) ->
    split_from sep (join_with sep (w :: ws)) EmptyString = w :: ws.
Proof.
  induction ws as [|w' ws IH]; intros w Hwords.
  - cbn [join_with]. rewrite <- (append_nil_r w) at 1.
    rewrite split_from_word by now inversion Hwords.
    reflexivity.
  - change (join_with sep (w :: w' :: ws))
      with (w ++ String sep (join_with sep (w' :: ws)))%string.
    rewrite split_from_word by now inversion Hwords.
    cbn [split_from]. rewrite Ascii.eqb_refl.
    rewrite IH by now inversion Hwords.
    reflexivity.
Qed.

(** Splitting a line made of words without spaces gives the words back,
    unless the line is empty. *)
Lemma split_join_with (sep : ascii) (ws : list string) :
  Forall (fun w => contains_char sep w = false) ws ->
  ws <> [] -> ws <> [EmptyString] ->
  split sep (join_with sep ws) = ws.
Proof.
  intros Hwords Hnil Hempty. destruct ws as [|w ws]; [contradiction|].
  pose proof (split_from_join_with sep ws w Hwords) as Hsplit.
  unfold split. destruct (join_with sep (w :: ws)) eqn:Hjoin; [|exact Hsplit].
  cbn [split_from] in Hsplit. congruence.
Qed.

Lemma fold_left_push_back_argument (arguments : list string) :
  forall command : Command,
    stage (fold_left push_back_argument arguments command)
    = (name_m command, arguments_m command ++ map c_str arguments).
Proof.
  unfold stage. induction arguments as [|argument arguments IH]; intros command.
  - simpl. now rewrite app_nil_r.
  - cbn [fold_left map]. rewrite IH. cbn [push_back_argument name_m arguments_m].
    now rewrite <- app_assoc.
Qed.

(** C3, as the code has it: a word that begins with a pipe is dropped
    whole, be it the lone [|] or a glued [|cmd]; the line with [|cmd]
    behaves as the line with [|] in its place, the stage name being the
    word after it and the following words its bound arguments. *)
Theorem enqueue_command_pipe_word_dropped :
  (forall (self : Interpreter) (pre post : list string) (cmd : string) (trace : list event),
      Forall (fun w => contains_char " " w = false) (pre ++ cmd :: post) ->
      run (enqueue_command self (join_with " " (pre ++ String "|" cmd :: post))) trace
      = run (enqueue_command self (join_with " " (pre ++ "|" :: post))) trace) /\
  (forall (commands : gmap string Command) (pipe name : string) (arguments : list string)
          (found : Command) (c : ascii) (trace : list event),
      front pipe = Some "|"%char ->
      front name = Some c -> c <> "|"%char ->
      commands !! c_str name = Some found ->
      run (fnParseCommand commands (pipe :: name :: arguments)) trace
      = (Ok (Some (fold_left push_back_argument arguments found)), trace) /\
      stage (fold_left push_back_argument arguments found)
      = (name_m found, arguments_m found ++ map c_str arguments)).
Proof.
  split.
  - intros self pre post cmd trace Hwords.
    assert (Hglued : split " " (join_with " " (pre ++ String "|" cmd :: post))
                     = pre ++ String "|" cmd :: post).
    { apply split_join_with.
      - apply Forall_app in Hwords as [Hpre Hpost]. apply Forall_app. split; [exact Hpre|].
        inversion Hpost as [|? ? Hcmd Hpost']; subst. constructor; [|exact Hpost'].
        cbn [contains_char]. now rewrite Hcmd.
      - now destruct pre.
      - destruct pre as [|? [|? ?]]; discriminate. }
    assert (Hlone : split " " (join_with " " (pre ++ "|" :: post)) = pre ++ "|" :: post).
    { apply split_join_with.
      - apply Forall_app in Hwords as [Hpre Hpost]. apply Forall_app. split; [exact Hpre|].
        inversion Hpost as [|? ? Hcmd Hpost']; subst. constructor; [reflexivity|exact Hpost'].
      - now destruct pre.
      - destruct pre as [|? [|? ?]]; discriminate. }
    unfold enqueue_command. rewrite Hglued, Hlone.
    pose proof (chunk_by_sim (String "|" cmd) "|" pre post eq_refl eq_refl) as Hsim.
    destruct Hsim as [| |chunk chunk' rest rest' Hchunk Hrest]; try reflexivity.
    rewrite !run_bind, (fnParseCommand_view _ chunk chunk' trace Hchunk).
    destruct (run (fnParseCommand (commands_m self) chunk') trace)
      as [[[masterCommand|]|f] trace']; try reflexivity.
    rewrite !run_bind, (parse_subcommands_sim _ _ _ Hrest). reflexivity.
  - intros commands pipe name arguments found c trace Hpipe Hname Hc Hfound.
    split; [|apply fold_left_push_back_argument].
    apply fnParseCommand_found with (name := name); [|exact Hfound].
    rewrite drop_while_pipe_pipe by exact Hpipe.
    cbn [drop_while_pipe]. rewrite Hname.
    destruct (Ascii.eqb_spec c "|"); [contradiction|reflexivity].
Qed.

(** C3 as stated fails: with [|hex] glued, the stage resolved is [echo],
    the word after it, not [hex]; with the pipe as a separate word the
    stage is [hex] with the bound argument [echo]. *)
Lemma glued_pipe_differs :
  queued_pipelines "iota 1 3 |hex echo" = Ok [(("iota", ["1"; "3"]), [("echo", [])])] /\
  queued_pipelines "iota 1 3 | hex echo" = Ok [(("iota", ["1"; "3"]), [("hex", ["echo"])])] /\
  queued_pipelines "iota 1 3 |hex echo" <> queued_pipelines "iota 1 3 | hex echo".
Proof.
  split; [vm_compute; reflexivity|].
  split; [vm_compute; reflexivity|].
  vm_compute. discriminate.
Qed.

(** A glued stage name with no word after it leaves the group without a
    name: taking the front of the empty view is undefined. *)
Lemma glued_pipe_alone :
  queued_pipelines "iota 1 3 |echo" = Fail Undefined /\
  queued_pipelines "iota 1 3 | echo" = Ok [(("iota", ["1"; "3"]), [("echo", [])])].
Proof. split; vm_compute; reflexivity. Qed.

(** An instance of C3: [iota 1 3 |hex echo] and [iota 1 3 | echo]. *)
Lemma enqueue_command_pipe_word_dropped_witness :
  run (enqueue_command (Interpreter_new registered)
         (join_with " " (["iota"; "1"; "3"] ++ String "|" "hex" :: ["echo"]))) []
  = run (enqueue_command (Interpreter_new registered)
           (join_with " " (["iota"; "1"; "3"] ++ "|" :: ["echo"]))) [] /\
  (run (fnParseCommand registered ["|hex"; "echo"; "x"]) []
   = (Ok (Some (fold_left push_back_argument ["x"]
                  (Command_new "echo" 1 (Captureless Primitive.echo)))), []) /\
   stage (fold_left push_back_argument ["x"]
            (Command_new "echo" 1 (Captureless Primitive.echo)))
   = ("echo", [] ++ map c_str ["x"])).
Proof.
  split.
  - apply (proj1 enqueue_command_pipe_word_dropped
             (Interpreter_new registered) ["iota"; "1"; "3"] ["echo"] "hex" []).
    repeat constructor.
  - apply (proj2 enqueue_command_pipe_word_dropped
             registered "|hex" "echo" ["x"]
             (Command_new "echo" 1 (Captureless Primitive.echo)) "e"%char []);
      [reflexivity | reflexivity | discriminate | reflexivity].
Defined.

(** An instance of C8: a right parenthesis met with a sum above a left
    parenthesis on the stack, a right parenthesis met with a sum alone,
    and the tokens of the parenthesised sum of 3 and 4 times 2. *)
Lemma parse_expression_right_parenthesis_witness :
  Math.parse_token (lexed Math.RPAREN Math._1 ")")
    ([lexed Math.NUMBER Math.NONE "3"; lexed Math.NUMBER Math.NONE "4"],
     [lexed Math.OPERATOR Math._3 "+"] ++ lexed Math.LPAREN Math._1 "("
        :: [lexed Math.OPERATOR Math._2 "*"])
  = Ok ([lexed Math.NUMBER Math.NONE "3"; lexed Math.NUMBER Math.NONE "4"]
          ++ [lexed Math.OPERATOR Math._3 "+"],
        [lexed Math.OPERATOR Math._2 "*"]) /\
  Math.parse_token (lexed Math.RPAREN Math._1 ")")
    ([lexed Math.NUMBER Math.NONE "3"; lexed Math.NUMBER Math.NONE "4"],
     [lexed Math.OPERATOR Math._3 "+"])
  = Fail (AssertionFailed "MISMATCHING PARENTHESIS") /\
  exists postfix,
    Math.parse_expression
      [lexed Math.LPAREN Math._1 "("; lexed Math.NUMBER Math.NONE "3";
       lexed Math.OPERATOR Math._3 "+"; lexed Math.NUMBER Math.NONE "4";
       lexed Math.RPAREN Math._1 ")"; lexed Math.OPERATOR Math._2 "*";
       lexed Math.NUMBER Math.NONE "2"]
    = Ok postfix.
Proof.
  destruct parse_expression_right_parenthesis as (Hfound & Hmissing & Hbalanced).
  split; [|split].
  - apply Hfound; [reflexivity | repeat constructor | reflexivity].
  - apply Hmissing; [reflexivity | repeat constructor].
  - apply Hbalanced. reflexivity.
Defined.

(** An instance of C10: [bin 300] is 16 bits wide. *)
Lemma bin_smallest_width_witness :
  exists width : nat,
    smallest_width 300 = Some width /\
    run (Primitive.bin ["300"]) []
    = (Ok [("0b" ++ zero_padded width (binary 300))%string], []).
Proof.
  apply (proj1 bin_smallest_width "300" [] 300%N []);
    [reflexivity | vm_compute; discriminate].
Defined.

(** The strings [bin] returns at the four widths. *)
Lemma bin_examples :
  map (fun s => fst (run (Primitive.bin [s]) [])) ["0"; "255"; "256"; "65536"]
  = [Ok ["0b00000000"]; Ok ["0b11111111"]; Ok ["0b0000000100000000"];
     Ok ["0b00000000000000010000000000000000"]] /\
  fst (run (Primitive.bin ["18446744073709551615"]) [])
  = Ok ["0b1111111111111111111111111111111111111111111111111111111111111111"] /\
  fst (run (Primitive.bin []) []) = Fail OutOfRange.
Proof. repeat split; vm_compute; reflexivity. Qed.

(** ** The registry and the recursion bound *)

(** No assertion of [register_command] fails while the ten primitives
    are registered. *)
Lemma register_commands_registered : register_commands ∅ = Ok registered.
Proof.
  assert (H : match register_commands ∅ with Ok _ => true | Fail _ => false end = true)
    by (vm_compute; reflexivity).
  unfold registered. destruct (register_commands ∅); [reflexivity|discriminate].
Qed.

(** Registering a name twice fails the assertion. *)
Lemma register_command_duplicate (command : Command) (commands : gmap string Command) :
  is_Some (commands !! name_m command) ->
  Commands.register_command command commands
  = Fail (AssertionFailed "commands_m.contains(command.name()) != true").
Proof.
  intros Hknown. unfold Commands.register_command.
  now rewrite bool_decide_eq_true_2.
Qed.

(** Calling a command without arguments is calling it with none. *)
Lemma Command_call_nil (fuel : nat) (commands : gmap string Command) (self : Command) :
  Command_call fuel commands self [] = Command_call0 fuel commands self.
Proof. unfold Command_call, Command_call0. now rewrite app_nil_r. Qed.

Lemma registered_capturing (name : string) (c : Command) :
  registered !! name = Some c -> capturing_is_variadic c = true.
Proof.
  intros Hlookup.
  assert (Hknown : In name (map_to_list registered).*1).
  { apply (proj1 (registered_known name)). exists c. exact Hlookup. }
  rewrite registered_keys in Hknown.
  assert (Hall : Forall (fun k => capturing_is_variadic <$> registered !! k = Some true)
                   ["sub"; "mul"; "echo"; "iota"; "quit"; "add"; "apply"; "bin"; "div"; "hex"])
    by (repeat constructor; vm_compute; reflexivity).
  rewrite Forall_forall in Hall. apply list_elem_of_In in Hknown.
  specialize (Hall name Hknown).
  rewrite Hlookup in Hall. now injection Hall.
Qed.

Lemma apply_each_ext (call call' : argument_t -> IO return_t) :
  (forall arguments trace, run (call arguments) trace = run (call' arguments) trace) ->
  forall (fixed stream : argument_t) (result : return_t) (trace : list event),
    run (Primitive.apply_each call fixed stream result) trace
    = run (Primitive.apply_each call' fixed stream result) trace.
Proof.
  unfold argument_t, return_t in *. intros Hcall fixed stream.
  induction stream as [|argument stream IH]; intros result trace; [reflexivity|].
  cbn [Primitive.apply_each]. rewrite !run_bind, Hcall.
  destruct (run (call' (argument :: fixed)) trace) as [[operationResult|f] trace'];
    [apply IH|reflexivity].
Qed.

(** On the registered primitives two levels of calls are all there is:
    [apply] calls a primitive that captures nothing, and [apply] applied
    to [apply] stops at the count before any call.  More fuel changes
    nothing. *)
Lemma invoke_registered_fuel (fuel : nat) (self : Command)
    (localArguments : argument_t) (trace : list event) :
  run (invoke (S (S fuel)) registered self localArguments) trace
  = run (invoke 2 registered self localArguments) trace.
Proof.
  cbn [invoke]. rewrite !run_bind. cbn [emit run].
  destruct (action_m self) as [action|]; [reflexivity|].
  unfold Primitive.apply. rewrite !run_bind.
  destruct (run (at_ localArguments 0) (trace ++ [Invoked (name_m self)]))
    as [[target|f] trace1]; [|reflexivity].
  rewrite !run_bind. unfold Commands.command.
  destruct (registered !! c_str target) as [requestedCommand|] eqn:Hlookup.
  - rewrite !run_ret.
    pose proof (registered_capturing _ _ Hlookup) as Hvariadic.
    unfold capturing_is_variadic in Hvariadic.
    rewrite !run_bind. cbn [lift run]. unfold views_take at 1 3.
    destruct (to_difference (arguments_count requestedCommand) <? 0)%Z eqn:Hcount;
      [reflexivity|].
    rewrite !run_bind. cbn [lift run].
    destruct (views_drop 1 _) as [requestedCommandArguments|f]; [|reflexivity].
    rewrite !run_bind. cbn [lift run].
    destruct (views_drop _ localArguments) as [stream|f]; [|reflexivity].
    apply apply_each_ext. intros arguments trace'.
    destruct (action_m requestedCommand) as [action|] eqn:Haction; [|congruence].
    reflexivity.
  - rewrite !run_bind.
    generalize (handle_non_existing_command registered target). intros report.
    destruct (run report trace1) as [[[]|f] trace2]; [|reflexivity].
    rewrite !run_ret. cbv beta iota. reflexivity.
Qed.

(** * Further properties of the code *)

(** ** EditDistance and the suggestions *)

(** X1: what [calculate_edit_distance] computes.  With an empty string it
    returns the length of the other one; with two non-empty strings it
    returns 0 when their first characters are equal and 1 otherwise,
    whatever follows. *)
Theorem calculate_edit_distance_first_characters :
  (forall to : string, calculate_edit_distance EmptyString to = size to) /\
  (forall from : string, calculate_edit_distance from EmptyString = size from) /\
  (forall (f t : ascii) (from to : string),
      calculate_edit_distance (String f from) (String t to)
      = if Ascii.eqb f t then 0%N else 1%N).
Proof.
  split; [reflexivity|]. split.
  - exact calculate_edit_distance_empty_r.
  - exact calculate_edit_distance_cons.
Qed.

(** X2: for a non-empty unknown name, the names of the registry that
    [handle_non_existing_command] lists as similar are exactly those
    that begin with the same character as the unknown name, in the
    iteration order of the registry.  Names are strings held in memory,
    at most [2 ^ 64 - 1] characters long. *)
Theorem similar_commands_same_first
    (availableCommands : gmap string Command) (commandName : string) :
  commandName <> EmptyString ->
  (size commandName <= Size.max)%N ->
  forallb (fun k => (size k <=? Size.max)%N) (map_to_list availableCommands).*1 = true ->
  similar_commands availableCommands commandName
  = Ok (List.filter (same_first commandName) (map_to_list availableCommands).*1).
Proof.
  intros Hne Hsize Hkeys. unfold similar_commands.
  now apply filter_similar_same_first.
Qed.

(** An instance of X2: the unknown name [hi] on the registered
    primitives; [hex] is the one name that begins with an [h]. *)
Lemma similar_commands_same_first_witness :
  similar_commands registered "hi"
  = Ok (List.filter (same_first "hi") (map_to_list registered).*1).
Proof.
  apply (similar_commands_same_first registered "hi");
    [discriminate | vm_compute; discriminate | vm_compute; reflexivity].
Defined.

Lemma printed_app (trace trace' : list event) :
  printed (trace ++ trace') = (printed trace ++ printed trace')%string.
Proof.
  induction trace as [|[text|name] trace IH]; [reflexivity| |exact IH].
  cbn [app printed]. now rewrite IH, append_assoc.
Qed.

Lemma print_suggestions_text (similarCommands : list string) :
  forall trace : list event,
    exists out,
      run (print_suggestions similarCommands) trace = (Ok tt, trace ++ out) /\
      invoked out = [] /\
      printed out = suggestion_lines similarCommands.
Proof.
  induction similarCommands as [|command rest IH]; intros trace.
  - exists []. now rewrite app_nil_r.
  - destruct (IH (trace ++ [Printed (("    - " ++ command) ++ newline)%string]))
      as (out & Hrun & Hinvoked & Hprinted).
    exists (Printed (("    - " ++ command) ++ newline)%string :: out).
    split; [|split].
    + cbn [print_suggestions]. rewrite run_bind. cbn [println emit run].
      rewrite Hrun. now rewrite <- List.app_assoc.
    + exact Hinvoked.
    + cbn [printed suggestion_lines]. rewrite Hprinted.
      now rewrite (append_assoc "    - " command newline).
Qed.

Lemma handle_non_existing_command_text
    (availableCommands : gmap string Command) (commandName : string)
    (similarCommands : list string) (trace : list event) :
  similar_commands availableCommands commandName = Ok similarCommands ->
  exists out,
    run (handle_non_existing_command availableCommands commandName) trace
    = (Ok tt, trace ++ out) /\
    invoked out = [] /\
    printed out = report_text commandName similarCommands.
Proof.
  intros Hsimilar. unfold handle_non_existing_command, report_text.
  rewrite run_bind. cbn [print emit run]. rewrite run_bind.
  cbn [lift run]. rewrite Hsimilar.
  destruct similarCommands as [|command rest].
  - exists [Printed ("the command `" ++ commandName ++ "` doesn't exist.")%string;
            Printed newline].
    cbn [print emit run]. rewrite <- List.app_assoc. split; [reflexivity|].
    split; [reflexivity|]. cbn [printed]. now rewrite append_nil_r.
  - rewrite run_bind. cbn [println emit run].
    destruct (print_suggestions_text (command :: rest)
                ((trace ++ [Printed ("the command `" ++ commandName ++ "` doesn't exist.")%string])
                   ++ [Printed (" did you mean:" ++ newline)%string]))
      as (out & Hrun & Hinvoked & Hprinted).
    exists (Printed ("the command `" ++ commandName ++ "` doesn't exist.")%string
              :: Printed (" did you mean:" ++ newline)%string :: out).
    split; [|split].
    + rewrite Hrun. now rewrite <- !List.app_assoc.
    + exact Hinvoked.
    + cbn [printed]. now rewrite Hprinted.
Qed.

(** X3: when the filter over the registry is defined,
    [handle_non_existing_command] returns normally having only printed:
    the not-found sentence, then a line break if nothing is similar, or
    else [ did you mean:] and one indented line per similar name.  It
    invokes the action of no command. *)
Theorem handle_non_existing_command_report
    (availableCommands : gmap string Command) (commandName : string)
    (similarCommands : list string) (trace : list event) :
  similar_commands availableCommands commandName = Ok similarCommands ->
  exists out,
    run (handle_non_existing_command availableCommands commandName) trace
    = (Ok tt, trace ++ out) /\
    invoked out = [] /\
    printed out = report_text commandName similarCommands.
Proof. apply handle_non_existing_command_text. Qed.

(** An instance of X3: the report on [eco]. *)
Lemma handle_non_existing_command_report_witness :
  exists out,
    run (handle_non_existing_command registered "eco") [] = (Ok tt, [] ++ out) /\
    invoked out = [] /\
    printed out = report_text "eco" ["echo"].
Proof.
  apply (handle_non_existing_command_report registered "eco" ["echo"] []).
  vm_compute. reflexivity.
Defined.

(** ** CommandRegistry *)

Lemma outcome_bind_Ok {A B : Type} (a : A) (k : A -> outcome B) : (Ok a ≫= k) = k a.
Proof. reflexivity. Qed.

Lemma outcome_bind_Fail {A B : Type} (f : fault) (k : A -> outcome B) :
  (Fail f ≫= k) = Fail f.
Proof. reflexivity. Qed.

Lemma register_command_fresh (command : Command) (commands : gmap string Command) :
  commands !! name_m command = None ->
  Commands.register_command command commands = Ok (<[name_m command := command]> commands).
Proof.
  intros Hfresh. unfold Commands.register_command.
  rewrite bool_decide_eq_false_2; [reflexivity|].
  rewrite Hfresh. now intros [? ?].
Qed.

(** X4: registering a command under a name that is not yet in the
    registry succeeds; the registry then resolves that name to the
    command, resolves every other name as before, and refuses a second
    registration of the name with a failed assertion.  Looking the name
    up through [Commands::command] returns the command and prints
    nothing. *)
Theorem register_command_lookup (command : Command) (commands : gmap string Command) :
  commands !! name_m command = None ->
  exists commands',
    Commands.register_command command commands = Ok commands' /\
    commands' !! name_m command = Some command /\
    (forall name, name <> name_m command -> commands' !! name = commands !! name) /\
    Commands.register_command command commands'
    = Fail (AssertionFailed "commands_m.contains(command.name()) != true") /\
    (forall trace,
        c_str (name_m command) = name_m command ->
        run (Commands.command commands' (name_m command)) trace
        = (Ok (Some command), trace)).
Proof.
  intros Hfresh. exists (<[name_m command := command]> commands).
  split; [now apply register_command_fresh|].
  split; [apply lookup_insert_eq|].
  split; [intros name Hname; now apply lookup_insert_ne|].
  split.
  - apply register_command_duplicate. rewrite lookup_insert_eq. eauto.
  - intros trace Hname. apply command_found. rewrite Hname. apply lookup_insert_eq.
Qed.

(** An instance of X4: [quit] registered in the empty registry. *)
Lemma register_command_lookup_witness :
  exists commands',
    Commands.register_command (Command_new "quit" 0 (Captureless Primitive.quit)) ∅
    = Ok commands' /\
    commands' !! "quit" = Some (Command_new "quit" 0 (Captureless Primitive.quit)) /\
    (forall name, name <> "quit" -> commands' !! name = (∅ : gmap string Command) !! name) /\
    Commands.register_command (Command_new "quit" 0 (Captureless Primitive.quit)) commands'
    = Fail (AssertionFailed "commands_m.contains(command.name()) != true") /\
    (forall trace,
        c_str "quit" = "quit" ->
        run (Commands.command commands' "quit") trace
        = (Ok (Some (Command_new "quit" 0 (Captureless Primitive.quit))), trace)).
Proof.
  apply (register_command_lookup (Command_new "quit" 0 (Captureless Primitive.quit)) ∅).
  reflexivity.
Defined.

(** The ten insertions of [register_commands], in order. *)
Lemma register_commands_fresh (commands : gmap string Command) :
  Forall (fun name => commands !! name = None)
    ["quit"; "echo"; "add"; "sub"; "mul"; "div"; "hex"; "bin"; "iota"; "apply"] ->
  register_commands commands
  = Ok (<["apply" := Command_new "apply" Size.max CapturingCommands]>
        (<["iota" := Command_new "iota" 2 (Captureless Primitive.iota)]>
        (<["bin" := Command_new "bin" 1 (Captureless Primitive.bin)]>
        (<["hex" := Command_new "hex" 1 (Captureless Primitive.hex)]>
        (<["div" := Command_new "div" 2 (Captureless Primitive.div)]>
        (<["mul" := Command_new "mul" 2 (Captureless Primitive.mul)]>
        (<["sub" := Command_new "sub" 2 (Captureless Primitive.sub)]>
        (<["add" := Command_new "add" 2 (Captureless Primitive.add)]>
        (<["echo" := Command_new "echo" 1 (Captureless Primitive.echo)]>
        (<["quit" := Command_new "quit" 0 (Captureless Primitive.quit)]>
           commands)))))))))).
Proof.
  intros Hfresh.
  repeat match goal with
         | H : Forall _ (_ :: _) |- _ => apply Forall_cons in H as [? H]
         end.
  unfold register_commands.
  repeat (rewrite register_command_fresh;
          [rewrite outcome_bind_Ok
          |cbn [name_m Command_new]; rewrite ?lookup_insert_ne by discriminate; assumption]).
  rewrite register_command_fresh; [reflexivity|].
  cbn [name_m Command_new]. rewrite ?lookup_insert_ne by discriminate. assumption.
Qed.

Lemma Ok_inj {A : Type} (a b : A) : Ok a = Ok b -> a = b.
Proof. now intros [= ->]. Qed.

Lemma registered_insertions :
  registered
  = <["apply" := Command_new "apply" Size.max CapturingCommands]>
    (<["iota" := Command_new "iota" 2 (Captureless Primitive.iota)]>
    (<["bin" := Command_new "bin" 1 (Captureless Primitive.bin)]>
    (<["hex" := Command_new "hex" 1 (Captureless Primitive.hex)]>
    (<["div" := Command_new "div" 2 (Captureless Primitive.div)]>
    (<["mul" := Command_new "mul" 2 (Captureless Primitive.mul)]>
    (<["sub" := Command_new "sub" 2 (Captureless Primitive.sub)]>
    (<["add" := Command_new "add" 2 (Captureless Primitive.add)]>
    (<["echo" := Command_new "echo" 1 (Captureless Primitive.echo)]>
    (<["quit" := Command_new "quit" 0 (Captureless Primitive.quit)]> ∅))))))))).
Proof.
  apply Ok_inj. rewrite <- register_commands_registered.
  apply register_commands_fresh. repeat constructor.
Qed.

(** X5: [register_commands] run on a registry that holds none of the
    ten names of the primitives trips no assertion and adds the ten
    primitives to what the registry held; run on a registry that
    already holds one of these names, it fails the assertion of
    [register_command]. *)
Theorem register_commands_disjoint_or_fatal (commands : gmap string Command) :
  (Forall (fun name => commands !! name = None)
     ["quit"; "echo"; "add"; "sub"; "mul"; "div"; "hex"; "bin"; "iota"; "apply"] ->
   register_commands commands = Ok (registered ∪ commands)) /\
  (Exists (fun name => is_Some (commands !! name))
     ["quit"; "echo"; "add"; "sub"; "mul"; "div"; "hex"; "bin"; "iota"; "apply"] ->
   register_commands commands
   = Fail (AssertionFailed "commands_m.contains(command.name()) != true")).
Proof.
  split.
  - intros Hfresh. rewrite (register_commands_fresh commands Hfresh).
    rewrite registered_insertions, <- !insert_union_l.
    now rewrite (left_id_L ∅ (∪) commands).
  - intros Hknown. unfold register_commands.
    repeat match goal with
           | |- context [Commands.register_command ?c ?m ≫= _] =>
               destruct (m !! name_m c) eqn:?;
               [rewrite (register_command_duplicate c m) by eauto; reflexivity
               |rewrite (register_command_fresh c m) by assumption;
                rewrite outcome_bind_Ok]
           end.
    match goal with
    | |- Commands.register_command ?c ?m = _ =>
        destruct (m !! name_m c) eqn:?;
        [apply register_command_duplicate; eauto|]
    end.
    exfalso. cbn [name_m Command_new] in *.
    rewrite ?lookup_insert_ne in * by discriminate.
    repeat match goal with
           | H : Exists _ (_ :: _) |- _ =>
               apply Exists_cons in H as [[? ?]|H]; [congruence|]
           end.
    now apply Exists_nil in Hknown.
Qed.

(** An instance of X5: the empty registry, and a registry that already
    holds a command named [add]. *)
Lemma register_commands_disjoint_or_fatal_witness :
  register_commands ∅ = Ok (registered ∪ ∅) /\
  register_commands {[ "add" := Command_new "add" 2 (Captureless Primitive.echo) ]}
  = Fail (AssertionFailed "commands_m.contains(command.name()) != true").
Proof.
  split.
  - apply (proj1 (register_commands_disjoint_or_fatal ∅)). repeat constructor.
  - apply (proj2 (register_commands_disjoint_or_fatal
                    {[ "add" := Command_new "add" 2 (Captureless Primitive.echo) ]})).
    do 2 apply Exists_cons_tl. apply Exists_cons_hd.
    rewrite lookup_singleton_eq. eauto.
Defined.

(** ** PipelineInterpreter: what parsing a line does and does not do *)

Lemma quiet_ret {A : Type} (a : A) : quiet (mret a).
Proof.
  intros trace. exists []. cbn. rewrite app_nil_r. repeat split. discriminate.
Qed.

Lemma quiet_abort {A : Type} : quiet (abort Undefined : IO A).
Proof.
  intros trace. exists []. cbn. rewrite app_nil_r. repeat split. now intros f [= <-].
Qed.

Lemma quiet_lift {A : Type} (m : outcome A) :
  (forall f, m = Fail f -> f = Undefined) -> quiet (lift m).
Proof.
  intros Hm trace. exists []. cbn. rewrite app_nil_r. repeat split. exact Hm.
Qed.

Lemma quiet_print (text : string) : quiet (print text).
Proof.
  intros trace. exists [Printed text]. cbn. repeat split. discriminate.
Qed.

Lemma quiet_bind {A B : Type} (m : IO A) (k : A -> IO B) :
  quiet m -> (forall a, quiet (k a)) -> quiet (m ≫= k).
Proof.
  intros Hm Hk trace. destruct (Hm trace) as (out & Hout & Hinvoked & Hfault).
  rewrite run_bind. destruct (run m trace) as [[a|f] trace1]; cbn [fst snd] in *; subst.
  - destruct (Hk a (trace ++ out)) as (out' & Hout' & Hinvoked' & Hfault').
    exists (out ++ out'). rewrite Hout', List.app_assoc. split; [reflexivity|].
    split; [|exact Hfault'].
    now rewrite invoked_app, Hinvoked, Hinvoked'.
  - exists out. cbn [fst snd]. split; [reflexivity|]. split; [exact Hinvoked|].
    intros f0 [= <-]. now apply Hfault.
Qed.

Lemma is_similar_fault (commandName value : string) (f : fault) :
  is_similar commandName value = Fail f -> f = Undefined.
Proof.
  unfold is_similar. destruct (Size.div _ _); [discriminate|]. now intros [= <-].
Qed.

Lemma filter_similar_fault (commandName : string) (keys : list string) (f : fault) :
  filter_similar commandName keys = Fail f -> f = Undefined.
Proof.
  induction keys as [|value keys IH]; [discriminate|].
  cbn [filter_similar].
  destruct (is_similar commandName value) as [keep|f'] eqn:Hsimilar.
  - rewrite outcome_bind_Ok.
    destruct (filter_similar commandName keys) as [rest|f'']; [discriminate|].
    rewrite outcome_bind_Fail. intros [= <-]. now apply IH.
  - rewrite outcome_bind_Fail. intros [= <-]. now apply is_similar_fault in Hsimilar.
Qed.

Lemma drop_while_pipe_fault (input : list string) (f : fault) :
  drop_while_pipe input = Fail f -> f = Undefined.
Proof.
  induction input as [|value rest IH]; [discriminate|].
  cbn [drop_while_pipe]. destruct (front value) as [c|]; [|now intros [= <-]].
  destruct (Ascii.eqb c "|"); [exact IH|discriminate].
Qed.

Lemma quiet_print_suggestions (similarCommands : list string) :
  quiet (print_suggestions similarCommands).
Proof.
  induction similarCommands as [|command rest IH]; [apply quiet_ret|].
  cbn [print_suggestions]. apply quiet_bind; [apply quiet_print|intros _; exact IH].
Qed.

Lemma quiet_handle_non_existing_command (availableCommands : gmap string Command)
    (commandName : string) :
  quiet (handle_non_existing_command availableCommands commandName).
Proof.
  unfold handle_non_existing_command.
  apply quiet_bind; [apply quiet_print|intros _].
  apply quiet_bind.
  - apply quiet_lift. intros f. apply filter_similar_fault.
  - intros [|command rest]; [apply quiet_print|].
    apply quiet_bind; [apply quiet_print|intros _; apply quiet_print_suggestions].
Qed.

Lemma quiet_command (commands : gmap string Command) (commandName : string) :
  quiet (Commands.command commands commandName).
Proof.
  unfold Commands.command. destruct (commands !! c_str commandName); [apply quiet_ret|].
  apply quiet_bind; [apply quiet_handle_non_existing_command|intros _; apply quiet_ret].
Qed.

Lemma quiet_fnParseCommand (commands : gmap string Command) (input : list string) :
  quiet (fnParseCommand commands input).
Proof.
  unfold fnParseCommand. apply quiet_bind.
  - apply quiet_lift. intros f. apply drop_while_pipe_fault.
  - intros [|name arguments]; [apply quiet_abort|].
    apply quiet_bind; [apply quiet_command|].
    intros [found|]; apply quiet_ret.
Qed.

Lemma quiet_parse_subcommands (commands : gmap string Command) (views : chunks) :
  forall masterCommand : Command, quiet (parse_subcommands commands views masterCommand).
Proof.
  induction views as [|view rest IH|]; intros masterCommand;
    [apply quiet_ret| |apply quiet_abort].
  cbn [parse_subcommands]. apply quiet_bind; [apply quiet_fnParseCommand|].
  intros [subcommand|]; [apply IH|apply quiet_ret].
Qed.

Lemma quiet_enqueue_command (self : Interpreter) (input : string) :
  quiet (enqueue_command self input).
Proof.
  unfold enqueue_command.
  destruct (chunk_by (split " " input)) as [|first rest|]; try apply quiet_abort.
  apply quiet_bind; [apply quiet_fnParseCommand|].
  intros [masterCommand|]; [|apply quiet_ret].
  apply quiet_bind; [apply quiet_parse_subcommands|].
  intros [masterCommand'|]; apply quiet_ret.
Qed.

Lemma enqueue_command_queue (self self' : Interpreter) (input : string)
    (trace trace' : list event) :
  run (enqueue_command self input) trace = (Ok self', trace') ->
  commands_m self' = commands_m self /\
  (queuedCommands_m self' = queuedCommands_m self \/
   exists masterCommand,
     queuedCommands_m self' = queuedCommands_m self ++ [masterCommand]).
Proof.
  unfold enqueue_command.
  destruct (chunk_by (split " " input)) as [|first rest|]; try discriminate.
  rewrite run_bind.
  destruct (run (fnParseCommand (commands_m self) first) trace)
    as [[[masterCommand|]|f] trace1]; try discriminate.
  - rewrite run_bind.
    destruct (run (parse_subcommands (commands_m self) rest masterCommand) trace1)
      as [[[masterCommand'|]|f] trace2]; try discriminate.
    + intros [= <- _]. split; [reflexivity|]. right. eauto.
    + intros [= <- _]. auto.
  - intros [= <- _]. auto.
Qed.

(** X6: whatever the line, [enqueue_command] invokes the action of no
    command: all it does to the outside is print.  When it returns, the
    registry is the one it had and the queue is the one it had or that
    queue with one master command appended.  It never exits, throws or
    fails an assertion: its one abnormal outcome is undefined behaviour. *)
Theorem enqueue_command_effects (self : Interpreter) (input : string) (trace : list event) :
  exists out,
    snd (run (enqueue_command self input) trace) = trace ++ out /\
    invoked out = [] /\
    match fst (run (enqueue_command self input) trace) with
    | Ok self' =>
        commands_m self' = commands_m self /\
        (queuedCommands_m self' = queuedCommands_m self \/
         exists masterCommand,
           queuedCommands_m self' = queuedCommands_m self ++ [masterCommand])
    | Fail f => f = Undefined
    end.
Proof.
  destruct (quiet_enqueue_command self input trace) as (out & Hout & Hinvoked & Hfault).
  exists out. split; [exact Hout|]. split; [exact Hinvoked|].
  destruct (run (enqueue_command self input) trace) as [[self'|f] trace'] eqn:Hrun;
    cbn [fst] in *.
  - now apply enqueue_command_queue in Hrun.
  - now apply Hfault.
Qed.

(** X7: when the name of the first group of a line is not in the
    registry, [enqueue_command] prints the report on that name and
    returns with the interpreter unchanged, without looking at the later
    groups: they may even hold an empty word, whose front is never read. *)
Theorem enqueue_command_unresolved_master
    (self : Interpreter) (input : string) (first : list string) (rest : chunks)
    (name : string) (arguments : list string) (trace : list event) :
  chunk_by (split " " input) = chunks_cons first rest ->
  drop_while_pipe first = Ok (name :: arguments) ->
  commands_m self !! c_str name = None ->
  exists similarCommands out,
    similar_commands (commands_m self) name = Ok similarCommands /\
    run (enqueue_command self input) trace = (Ok self, trace ++ out) /\
    invoked out = [] /\
    printed out = report_text name similarCommands.
Proof.
  intros Hchunks Hview Hmissing.
  destruct (filter_similar_defined name (map_to_list (commands_m self)).*1
              (drop_while_pipe_name _ _ _ Hview)) as [similarCommands Hsimilar].
  destruct (handle_non_existing_command_text (commands_m self) name similarCommands
              trace Hsimilar) as (out & Hrun & Hinvoked & Hprinted).
  exists similarCommands, out. split; [exact Hsimilar|].
  split; [|split; assumption].
  unfold enqueue_command. rewrite Hchunks, run_bind.
  unfold fnParseCommand. rewrite run_bind. cbn [lift run]. rewrite Hview.
  rewrite run_bind. unfold Commands.command. rewrite Hmissing.
  rewrite run_bind, Hrun. reflexivity.
Qed.

(** An instance of X7: the line [eco 1 | ] with a space at its end; the
    group after the pipe holds an empty word. *)
Lemma enqueue_command_unresolved_master_witness :
  exists similarCommands out,
    similar_commands (commands_m (Interpreter_new registered)) "eco" = Ok similarCommands /\
    run (enqueue_command (Interpreter_new registered) "eco 1 | ") []
    = (Ok (Interpreter_new registered), [] ++ out) /\
    invoked out = [] /\
    printed out = report_text "eco" similarCommands.
Proof.
  apply (enqueue_command_unresolved_master (Interpreter_new registered) "eco 1 | "
           ["eco"; "1"] chunks_undefined "eco" ["1"] []);
    vm_compute; reflexivity.
Defined.

Lemma chunk_by_from_head (ws : list string) :
  forall chunk : list string,
    chunk_by_from chunk ws = chunks_undefined \/
    exists more rest, chunk_by_from chunk ws = chunks_cons (chunk ++ more) rest.
Proof.
  induction ws as [|w ws IH]; intros chunk.
  - right. exists [], chunks_end. now rewrite app_nil_r.
  - cbn [chunk_by_from]. destruct (front w) as [c|]; [|now left].
    destruct (Ascii.eqb c "|").
    + right. exists [], (chunk_by_from [w] ws). now rewrite app_nil_r.
    + destruct (IH (chunk ++ [w])) as [Hundefined|(more & rest & Hcons)]; [now left|].
      right. exists (w :: more), rest. now rewrite Hcons, <- List.app_assoc.
Qed.

(** X8: the empty line and every line that begins with a space are
    undefined behaviour for [enqueue_command]: the first takes the front
    of an empty view of groups, the second the front of an empty word. *)
Theorem enqueue_command_undefined_lines (self : Interpreter) (trace : list event) :
  run (enqueue_command self EmptyString) trace = (Fail Undefined, trace) /\
  forall rest : string,
    run (enqueue_command self (String " " rest)) trace = (Fail Undefined, trace).
Proof.
  split; [reflexivity|]. intros rest.
  unfold enqueue_command, split. cbn [split_from]. rewrite Ascii.eqb_refl.
  cbn [chunk_by].
  destruct (chunk_by_from_head (split_from " " rest EmptyString) [EmptyString])
    as [Hundefined|(more & views & Hcons)].
  - now rewrite Hundefined.
  - rewrite Hcons. reflexivity.
Qed.






(** ** PipelineInterpreter: execution *)



